(** * Caption-to-speech-block reconstruction: a shallow embedding of
    [parse_captions.py] and the properties of its specification.

    Conventions of the embedding.
    - A Python [str] is a [string]; each character stands for a code point
      below 256, and strings are ordered by code point as Python orders them.
    - A raised exception is the [Raise] outcome of the [result] type.
    - A Python [float] is a binary64 number with the rounding of IEEE 754,
      so a sum of durations is the sum the program computes, rounded at
      each addition. A [datetime.timedelta] is its exact count of
      microseconds.
    - The dictionary [speaker_map] is a [gmap string string]. *)

From Stdlib Require Import ZArith Ascii Floats.SpecFloat.
From stdpp Require Import base numbers option list strings gmap.

Local Open Scope Z_scope.

(** ** Exceptions *)

Inductive exn : Type :=
| ValueError
| TypeError
| Exception (msg : string).

Inductive result (A : Type) : Type :=
| Ok (a : A)
| Raise (e : exn).
Arguments Ok {A} a.
Arguments Raise {A} e.

(** Sequencing: the first exception raised ends the computation. *)
Global Instance result_bind : MBind result := λ A B k m,
  match m with
  | Ok a => k a
  | Raise e => Raise e
  end.

(** ** String operations of Python used by the program *)

Module Str.

Definition CR : ascii := "013"%char.
Definition LF : ascii := "010"%char.
Definition NUL : ascii := "000"%char.
Definition SP : ascii := " "%char.

(** [s.lstrip(chars)], [s.rstrip(chars)], [s.strip(chars)]. *)
Fixpoint lstrip (chars : list ascii) (s : string) : string :=
  match s with
  | String c s' => if bool_decide (c ∈ chars) then lstrip chars s' else s
  | EmptyString => EmptyString
  end.

Definition rstrip (chars : list ascii) (s : string) : string :=
  String.rev (lstrip chars (String.rev s)).

Definition strip (chars : list ascii) (s : string) : string :=
  rstrip chars (lstrip chars s).

(** The characters [str.isspace] accepts among the code points below 256:
    9 to 13, 28 to 32, 133 and 160. *)
Definition whitespace : list ascii :=
  ["009"; "010"; "011"; "012"; "013"; "028"; "029"; "030"; "031"; " ";
   "133"; "160"]%char.

(** [s.startswith(p)]. *)
Fixpoint startswith (p s : string) : bool :=
  match p, s with
  | EmptyString, _ => true
  | String a p', String b s' => bool_decide (a = b) && startswith p' s'
  | String _ _, EmptyString => false
  end.

(** [c in s] for a one-character [c]. *)
Fixpoint contains (c : ascii) (s : string) : bool :=
  match s with
  | EmptyString => false
  | String a s' => bool_decide (a = c) || contains c s'
  end.

(** [s[n:]]. *)
Fixpoint skip (n : nat) (s : string) : string :=
  match n, s with
  | O, _ => s
  | S n', String _ s' => skip n' s'
  | S _, EmptyString => EmptyString
  end.

(** [s.split(sep)[0]] for a one-character [sep]: the part before the first
    separator, the whole string when there is none. *)
Fixpoint split_head (sep : ascii) (s : string) : string :=
  match s with
  | EmptyString => EmptyString
  | String a s' => if bool_decide (a = sep) then EmptyString
                   else String a (split_head sep s')
  end.

(** [s.lower()] on code points below 256: A-Z and the capital letters of
    the Latin-1 block (192 to 222, the multiplication sign 215 apart) move
    up by 32. *)
Definition lower_char (c : ascii) : ascii :=
  let n := nat_of_ascii c in
  if bool_decide (65 ≤ n ≤ 90 ∨ (192 ≤ n ≤ 222 ∧ n ≠ 215))%nat
  then ascii_of_nat (n + 32) else c.

Fixpoint lower (s : string) : string :=
  match s with
  | EmptyString => EmptyString
  | String a s' => String (lower_char a) (lower s')
  end.

(** [sep.join(l)]. *)
Fixpoint join (sep : string) (l : list string) : string :=
  match l with
  | [] => ""
  | [x] => x
  | x :: l' => x +:+ sep +:+ join sep l'
  end.

End Str.

(** ** [float] *)

(** Binary64: 53 bits of precision, exponents below 1024, every operation
    rounded to the nearest number, ties to even. [of_int] is the conversion
    [+], [-] and [/] apply to an integer operand; it is exact below 2^53 in
    size. *)
Module Float.
Definition t : Type := spec_float.

Definition of_int (n : Z) : t := binary_normalize 53 1024 n 0 false.

Definition add : t → t → t := SFadd 53 1024.
Definition sub : t → t → t := SFsub 53 1024.
Definition div : t → t → t := SFdiv 53 1024.

(** The integer [0] where the program adds floats to it. *)
Definition zero : t := of_int 0.
End Float.

Arguments Float.add : simpl never.
Arguments Float.sub : simpl never.
Arguments Float.div : simpl never.
Arguments Float.of_int : simpl never.
Arguments Float.zero : simpl never.

(** ** [datetime]: times of day and their differences *)

Definition digit (c : ascii) : option Z :=
  let n := Z.of_nat (nat_of_ascii c) in
  if bool_decide (48 ≤ n ≤ 57) then Some (n - 48) else None.

(** Exactly [n] decimal digits, read as a number after the digits [acc],
    and the text that follows them. *)
Fixpoint parse_digits (n : nat) (acc : Z) (s : string) : option (Z * string) :=
  match n with
  | O => Some (acc, s)
  | S n' =>
      match s with
      | String c s' => d ← digit c; parse_digits n' (10 * acc + d) s'
      | EmptyString => None
      end
  end.

(** [fff] or [ffffff], in microseconds. *)
Definition parse_fraction (s : string) : option Z :=
  if bool_decide (String.length s = 3%nat)
  then f ← parse_digits 3 0 s; Some (f.1 * 1000)
  else if bool_decide (String.length s = 6%nat)
  then f ← parse_digits 6 0 s; Some f.1
  else None.

(** [HH[:MM[:SS[.fff[fff]]]]]: the hour, the minute, the second and the
    microsecond, the fields left out being 0. *)
Definition parse_hh_mm_ss_ff (s : string) : option (Z * Z * Z * Z) :=
  hh ← parse_digits 2 0 s;
  match hh.2 with
  | EmptyString => Some (hh.1, 0, 0, 0)
  | String ":" s =>
      mm ← parse_digits 2 0 s;
      match mm.2 with
      | EmptyString => Some (hh.1, mm.1, 0, 0)
      | String ":" s =>
          ss ← parse_digits 2 0 s;
          match ss.2 with
          | EmptyString => Some (hh.1, mm.1, ss.1, 0)
          | String "." s => ff ← parse_fraction s; Some (hh.1, mm.1, ss.1, ff)
          | _ => None
          end
      | _ => None
      end
  | _ => None
  end.

Definition is_sign (c : ascii) : bool :=
  bool_decide (c = "+"%char ∨ c = "-"%char).

(** The text before the first sign, and the sign with the text after it
    when there is one. *)
Fixpoint split_at_sign (s : string) : string * option (ascii * string) :=
  match s with
  | EmptyString => (EmptyString, None)
  | String c s' =>
      if is_sign c then (EmptyString, Some (c, s'))
      else (String c (split_at_sign s').1, (split_at_sign s').2)
  end.

Definition microseconds_of (hh mm ss ff : Z) : Z :=
  ((hh * 60 + mm) * 60 + ss) * 1000000 + ff.

Definition DAY : Z := 86400000000.

(** The offset [HH:MM], [HH:MM:SS] or [HH:MM:SS.ffffff] after a sign, in
    microseconds. *)
Definition parse_utcoffset (sign : ascii) (s : string) : option Z :=
  if bool_decide (String.length s ∈ [5; 8; 15]%nat)
  then
    f ← parse_hh_mm_ss_ff s;
    let offset := microseconds_of f.1.1.1 f.1.1.2 f.1.2 f.2 in
    Some (if bool_decide (sign = "-"%char) then - offset else offset)
  else None.

(** A [datetime.time]: the time of day in microseconds since midnight,
    and, for an aware time, its offset from UTC in microseconds. *)
Module Time.
Record t : Type := mk { since_midnight : Z; utcoffset : option Z }.
End Time.

(** [datetime.time.fromisoformat] on the texts of the grammar it is
    documented to read, [HH[:MM[:SS[.fff[fff]]]][+HH:MM[:SS[.ffffff]]]]:
    [ValueError] when the hour, the minute or the second is out of range,
    or when the offset is not strictly within a day. The timestamps of a
    cue read by [webvtt] are the texts [HH:MM:SS.mmm] of this grammar. A
    text outside the grammar is given [ValueError] as well; releases of
    Python differ on some of those texts, and no statement below relies on
    what happens to them. *)
Definition time_fromisoformat (time_string : string) : result Time.t :=
  let parts := split_at_sign time_string in
  match parse_hh_mm_ss_ff parts.1 with
  | Some (hh, mm, ss, ff) =>
      if bool_decide (hh < 24 ∧ mm < 60 ∧ ss < 60)
      then
        match parts.2 with
        | None => Ok (Time.mk (microseconds_of hh mm ss ff) None)
        | Some (sign, tz) =>
            match parse_utcoffset sign tz with
            | Some offset =>
                if bool_decide (- DAY < offset < DAY)
                then Ok (Time.mk (microseconds_of hh mm ss ff) (Some offset))
                else Raise ValueError
            | None => Raise ValueError
            end
        end
      else Raise ValueError
  | None => Raise ValueError
  end.

(** [datetime.combine(PLACEHOLDER_DATE, a) - datetime.combine(
    PLACEHOLDER_DATE, b)]: the [timedelta] between two times of the same
    day, in microseconds. Two aware times are compared as UTC times; an
    aware and a naive time cannot be subtracted. *)
Definition datetime_sub (a b : Time.t) : result Z :=
  match Time.utcoffset a, Time.utcoffset b with
  | None, None => Ok (Time.since_midnight a - Time.since_midnight b)
  | Some oa, Some ob =>
      Ok ((Time.since_midnight a - oa) - (Time.since_midnight b - ob))
  | _, _ => Raise TypeError
  end.

(** [timedelta.total_seconds()]: the count of microseconds divided by
    10^6, rounded once. The count of a difference of two times of a day,
    offsets included, is below 2^53 in size. *)
Definition total_seconds (microseconds : Z) : Float.t :=
  Float.div (Float.of_int microseconds) (Float.of_int 1000000).

Definition calc_duration (start_time end_time : string) : result Float.t :=
  start_time ← time_fromisoformat start_time;
  end_time ← time_fromisoformat end_time;
  delta ← datetime_sub end_time start_time;
  Ok (total_seconds delta).

(** ** Nearest known speaker *)

(** Modelled from the spec: [jellyfish.levenshtein_distance], an external
    library function, is the classic edit distance with unit cost for the
    insertion, the deletion and the substitution of one character. *)
Fixpoint levenshtein_distance (s : string) : string → nat :=
  match s with
  | EmptyString => String.length
  | String a s' =>
      fix inner (t : string) : nat :=
        match t with
        | EmptyString => S (String.length s')
        | String b t' =>
            Nat.min ((if bool_decide (a = b) then 0 else 1)
                     + levenshtein_distance s' t')%nat
              (Nat.min (S (levenshtein_distance s' t)) (S (inner t')))
        end
  end.

(** Python's [<] on the pairs [(score, candidate)]: the scores decide, and
    equal scores leave the decision to the order of the strings. *)
Definition tuple_lt (p q : nat * string) : bool :=
  (p.1 <? q.1)%nat || ((p.1 =? q.1)%nat && String.ltb p.2 q.2).

(** The builtin [min] over an iterable: the running minimum is replaced
    only by an item strictly below it; [ValueError] on an empty iterable. *)
Fixpoint min_from (cur : nat * string) (items : list (nat * string))
  : nat * string :=
  match items with
  | [] => cur
  | item :: items' =>
      min_from (if tuple_lt item cur then item else cur) items'
  end.

Definition py_min (items : list (nat * string)) : result (nat * string) :=
  match items with
  | [] => Raise ValueError
  | item :: items' => Ok (min_from item items')
  end.

Definition get_closest_match (query : string) (knowns : list string)
  : result string :=
 '(lowest_score, best_candidate) ←
    py_min ((λ candidate, (levenshtein_distance query candidate, candidate))
              <$> knowns);
  Ok best_candidate.

(** ** Cues and speech blocks *)

(** A cue as the [webvtt] reader yields it. *)
Module Caption.
Record t : Type := mk { start : string; end_ : string; text : string }.
End Caption.

(** [Block = namedtuple("Block", ["start", "end", "duration", "speaker",
    "speech"])]. The two times are the loop's [start_time] and [end_time],
    which hold [None] until a cue sets them. *)
Module Block.
Record t : Type := mk {
  start : option string;
  end_ : option string;
  duration : Float.t;
  speaker : string;
  speech : string }.
End Block.

Definition UNKNOWN_SPEAKER : string := "UNKNOWN".

(** ** The speaker resolver *)

(** What the closure [infer_speaker] captures and may update: the
    dictionary [speaker_map], and a ghost counter [lev_calls] of the calls
    to [levenshtein_distance] made so far (one per candidate each time
    [get_closest_match] runs). The counter is not in the program; it only
    lets a statement say that no distance was computed. *)
Record Resolver : Type := mkResolver {
  speaker_map : gmap string string;
  lev_calls : nat }.

Definition infer_speaker (no_infer_speakers : bool)
    (known_speakers : list string) (speaker : string) (r : Resolver)
  : result (string * Resolver) :=
  if no_infer_speakers then Ok (speaker, r)
  else
    match speaker_map r !! speaker with
    | None =>
        inferred_speaker ← get_closest_match speaker known_speakers;
        Ok (inferred_speaker,
            mkResolver (<[speaker := inferred_speaker]> (speaker_map r))
                       (lev_calls r + length known_speakers))
    | Some cached => Ok (cached, r)
    end.

(** ** The segmenter loop of [get_speech_blocks] *)

(** The variables of [get_speech_blocks] that the loop reads and writes.
    [duration] starts as the integer [0] and is only ever added to a
    float, which converts it: it is kept converted, as [Float.zero]. *)
Record State : Type := mkState {
  resolver : Resolver;
  blocks : list Block.t;
  last_line : string;
  start_time : option string;
  end_time : option string;
  duration : Float.t;
  current_speech : string;
  speaker : string }.

(** [caption.text.strip("\r\n \u0000")]. *)
Definition normalize (text : string) : string :=
  Str.strip [Str.CR; Str.LF; Str.SP; Str.NUL] text.

(** [line[2:].split(":")[0].strip().lower()]. *)
Definition raw_label (line : string) : string :=
  Str.lower (Str.strip Str.whitespace (Str.split_head ":" (Str.skip 2 line))).

(** The block held in the loop variables. *)
Definition active_block (σ : State) : Block.t :=
  Block.mk (start_time σ) (end_time σ) (duration σ) (speaker σ)
    (current_speech σ).

(** [if start_time is not None: blocks.append(Block(...))]. *)
Definition record_previous (σ : State) : list Block.t :=
  match start_time σ with
  | Some _ => blocks σ ++ [active_block σ]
  | None => blocks σ
  end.

(** The speaker of a marker line: the resolved label before the colon, or
    the placeholder when the line has no colon. *)
Definition marker_speaker (no_infer_speakers : bool)
    (known_speakers : list string) (line : string) (r : Resolver)
  : result (string * Resolver) :=
  if Str.contains ":" line
  then infer_speaker no_infer_speakers known_speakers (raw_label line) r
  else Ok (UNKNOWN_SPEAKER, r).

(** The branch of the loop body taken by a line that starts a new speaker
    turn: record the previous block when there is one, start a new one, and
    set its speaker. *)
Definition marker_branch (no_infer_speakers : bool)
    (known_speakers : list string) (caption : Caption.t) (line : string)
    (σ : State) : result State :=
  let blocks' := record_previous σ in
  '(speaker', resolver') ←
    marker_speaker no_infer_speakers known_speakers line (resolver σ);
  Ok (mkState resolver' blocks' (last_line σ)
        (Some (Caption.start caption)) (Some (Caption.end_ caption))
        Float.zero line speaker').

(** The branch taken by any other line: extend the current speech and the
    end time. *)
Definition continuation_branch (caption : Caption.t) (line : string)
    (σ : State) : State :=
  mkState (resolver σ) (blocks σ) (last_line σ) (start_time σ)
    (Some (Caption.end_ caption)) (duration σ)
    (current_speech σ +:+ " " +:+ line) (speaker σ).

(** One iteration of [for idx, caption in enumerate(captions)]. *)
Definition loop_body (no_infer_speakers : bool)
    (known_speakers : list string) (caption : Caption.t) (σ : State)
  : result State :=
  let line := normalize (Caption.text caption) in
  if bool_decide (line = last_line σ) then Ok σ (* continue *)
  else
    let σ := mkState (resolver σ) (blocks σ) line (start_time σ)
               (end_time σ) (duration σ) (current_speech σ) (speaker σ) in
    σ ← (if Str.startswith ">>" line
         then marker_branch no_infer_speakers known_speakers caption line σ
         else Ok (continuation_branch caption line σ));
    d ← calc_duration (Caption.start caption) (Caption.end_ caption);
    Ok (mkState (resolver σ) (blocks σ) (last_line σ) (start_time σ)
          (end_time σ) (Float.add (duration σ) d) (current_speech σ)
          (speaker σ)).

Fixpoint run_loop (no_infer_speakers : bool) (known_speakers : list string)
    (captions : list Caption.t) (σ : State) : result State :=
  match captions with
  | [] => Ok σ
  | caption :: captions' =>
      σ' ← loop_body no_infer_speakers known_speakers caption σ;
      run_loop no_infer_speakers known_speakers captions' σ'
  end.

(** [{s: s for s in known_speakers}]. *)
Definition seed_map (known_speakers : list string) : gmap string string :=
  foldl (λ m s, <[s := s]> m) ∅ known_speakers.

Definition initial_state (known_speakers : list string) : State :=
  mkState (mkResolver (seed_map known_speakers) 0) [] "" None None
    Float.zero "" UNKNOWN_SPEAKER.

Definition get_speech_blocks (captions : list Caption.t)
    (no_infer_speakers : bool) (known_speakers : list string)
  : result (list Block.t * gmap string string) :=
  σ ← run_loop no_infer_speakers known_speakers captions
        (initial_state known_speakers);
  Ok (blocks σ, speaker_map (resolver σ)).

(** ** The callers in [main] *)

(** [[line.strip() for line in known_speakers_fp if line.strip()]] followed
    by [known_speakers.append(UNKNOWN_SPEAKER)]. *)
Definition load_known_speakers (lines : list string) : list string :=
  (Str.strip Str.whitespace <$>
     filter (λ line, Str.strip Str.whitespace line ≠ "") lines)
  ++ [UNKNOWN_SPEAKER].

(** ["\n".join(b.speech for b in blocks)]. *)
Definition get_transcript (blocks : list Block.t) : string :=
  Str.join (String Str.LF "") (Block.speech <$> blocks).

(** ** Header repair: [preprocess] *)

(** A text file open for reading: the decoded text and the read position,
    counted in characters. *)
Module TextIO.
Record t : Type := mk { contents : string; pos : nat }.

Definition open (contents : string) : t := mk contents 0.

(** The text up to and including the first line feed, all of it when
    there is none. *)
Fixpoint first_line (s : string) : string :=
  match s with
  | EmptyString => EmptyString
  | String c s' => if bool_decide (c = Str.LF) then String c EmptyString
                   else String c (first_line s')
  end.

Definition readline (fp : t) : string * t :=
  let line := first_line (Str.skip (pos fp) (contents fp)) in
  (line, mk (contents fp) (pos fp + String.length line)).

Definition tell (fp : t) : nat := pos fp.

Definition seek (offset : nat) (fp : t) : t := mk (contents fp) offset.

Definition read (fp : t) : string * t :=
  (Str.skip (pos fp) (contents fp),
   mk (contents fp) (pos fp `max` String.length (contents fp))).
End TextIO.

(** The classes of one character the pattern is made of. *)
Definition re_digit (c : ascii) : bool :=
  bool_decide (48 ≤ nat_of_ascii c ≤ 57)%nat.

Definition re_char (a c : ascii) : bool := bool_decide (c = a).

(** [pattern.match(line)] for a pattern that is a sequence of classes of
    one character: the line begins with one character of each class, in
    order. *)
Fixpoint re_match (pattern : list (ascii → bool)) (line : string) : bool :=
  match pattern, line with
  | [], _ => true
  | p :: pattern', String c line' => p c && re_match pattern' line'
  | _ :: _, EmptyString => false
  end.

(** [re.compile(r"^\d\d\:\d\d\:\d\d\.\d\d\d")]. *)
Definition timestamp_pattern : list (ascii → bool) :=
  [re_digit; re_digit; re_char ":"; re_digit; re_digit; re_char ":";
   re_digit; re_digit; re_char "."; re_digit; re_digit; re_digit].

(** The [while True] loop of [preprocess], at most [fuel] iterations:
    [None] when the iterations run out, otherwise the value of [file_pos]
    at the [break], or the exception. *)
Fixpoint find_timestamp_line (fuel : nat) (webvtt_fp : TextIO.t)
    (file_pos : nat) : option (result (nat * TextIO.t)) :=
  match fuel with
  | O => None
  | S fuel' =>
      let '(line, webvtt_fp) := TextIO.readline webvtt_fp in
      if bool_decide (line = "")
      then Some (Raise (Exception "No timestamp-like lines found!"))
      else if re_match timestamp_pattern line
      then Some (Ok (file_pos, webvtt_fp))
      else find_timestamp_line fuel' webvtt_fp (TextIO.tell webvtt_fp)
  end.

Definition preprocess_fuel (fuel : nat) (webvtt_fp : TextIO.t)
  : option (result string) :=
  found ← find_timestamp_line fuel webvtt_fp 0;
  Some ('(file_pos, webvtt_fp) ← found;
        let webvtt_fp := TextIO.seek file_pos webvtt_fp in
        Ok ("WEBVTT" +:+ String Str.CR (String Str.LF "")
              +:+ (TextIO.read webvtt_fp).1)).

(** Every iteration that does not end the loop reads at least one
    character, so one more iteration than the text has characters is
    enough. *)
Definition preprocess (webvtt_fp : TextIO.t) : option (result string) :=
  preprocess_fuel (S (String.length (TextIO.contents webvtt_fp))) webvtt_fp.

(** ** Notions the specification speaks of *)

(** The normalized line of a cue, and whether it is a speaker marker. *)
Definition line_of (c : Caption.t) : string := normalize (Caption.text c).

Definition is_marker (c : Caption.t) : bool := Str.startswith ">>" (line_of c).

(** The duplicate filter on its own: the cues whose line differs from the
    last accepted line, [last] being that line before the first cue. *)
Fixpoint accepted (last : string) (captions : list Caption.t)
  : list Caption.t :=
  match captions with
  | [] => []
  | c :: captions' =>
      if bool_decide (line_of c = last) then accepted last captions'
      else c :: accepted (line_of c) captions'
  end.

Fixpoint take_while {A : Type} (p : A → bool) (l : list A) : list A :=
  match l with
  | [] => []
  | x :: l' => if p x then x :: take_while p l' else []
  end.

(** The accepted cues before the first marker, which belong to no block. *)
Definition unattributed (cs : list Caption.t) : list Caption.t :=
  take_while (λ c, negb (is_marker c)) cs.

(** The cues assigned to each block: a marker cue and the cues after it up
    to the next marker. *)
Fixpoint segments (cs : list Caption.t) : list (list Caption.t) :=
  match cs with
  | [] => []
  | c :: cs' =>
      if is_marker c then (c :: unattributed cs') :: segments cs'
      else segments cs'
  end.

Definition value_or {A : Type} (d : A) (r : result A) : A :=
  match r with
  | Ok a => a
  | Raise _ => d
  end.

(** The contribution of a cue to a duration: what [calc_duration] returns
    for its two timestamps, in seconds. *)
Definition contribution (c : Caption.t) : Float.t :=
  value_or Float.zero (calc_duration (Caption.start c) (Caption.end_ c)).

(** The same length of time before [total_seconds()] turns it into a
    float: the exact count of microseconds from the start of the cue to
    its end. *)
Definition timedelta (c : Caption.t) : result Z :=
  start_time ← time_fromisoformat (Caption.start c);
  end_time ← time_fromisoformat (Caption.end_ c);
  datetime_sub end_time start_time.

Definition microseconds (c : Caption.t) : Z := value_or 0 (timedelta c).

Definition timed (c : Caption.t) : Prop :=
  calc_duration (Caption.start c) (Caption.end_ c) = Ok (contribution c).

(** Contributions added up in the order of the cues, from 0, each
    addition rounding as the program's [duration += ...] does. *)
Definition total_contribution (cs : list Caption.t) : Float.t :=
  foldl (λ acc c, Float.add acc (contribution c)) Float.zero cs.

(** The durations of blocks added up in their order, from 0. *)
Definition sum_durations (bs : list Block.t) : Float.t :=
  foldl (λ acc b, Float.add acc (Block.duration b)) Float.zero bs.

(** The exact counts of microseconds of cues, added up. *)
Definition total_microseconds (cs : list Caption.t) : Z :=
  foldl (λ acc c, acc + microseconds c) 0 cs.

(** The resolver as a function of the raw label alone. *)
Definition resolve (no_infer_speakers : bool) (known_speakers : list string)
    (raw : string) : result string :=
  if no_infer_speakers then Ok raw
  else if bool_decide (raw ∈ known_speakers) then Ok raw
  else get_closest_match raw known_speakers.

Definition speaker_of (no_infer_speakers : bool)
    (known_speakers : list string) (line : string) : result string :=
  if Str.contains ":" line
  then resolve no_infer_speakers known_speakers (raw_label line)
  else Ok UNKNOWN_SPEAKER.

(** The block a segment stands for: the times of its first and last cue,
    the sum of its contributions, the speaker of its marker line, and its
    lines joined by single spaces. *)
Definition block_of (no_infer_speakers : bool) (known_speakers : list string)
    (seg : list Caption.t) : Block.t :=
  Block.mk (Caption.start <$> head seg) (Caption.end_ <$> last seg)
    (total_contribution seg)
    (value_or UNKNOWN_SPEAKER
       (speaker_of no_infer_speakers known_speakers
          (from_option line_of "" (head seg))))
    (Str.join " " (line_of <$> seg)).

(** What holds of the dictionary throughout a run: every known speaker is
    mapped to itself, and every entry is what [resolve] gives for its key. *)
Definition map_inv (known_speakers : list string) (m : gmap string string)
  : Prop :=
  (∀ k, k ∈ known_speakers → m !! k = Some k) ∧
  (∀ k v, m !! k = Some v → resolve false known_speakers k = Ok v).

(** The marker line of a segment, and whether its speaker resolves. *)
Definition marker_line (seg : list Caption.t) : string :=
  from_option line_of "" (head seg).

Definition resolved (no_infer_speakers : bool) (known_speakers : list string)
    (seg : list Caption.t) : Prop :=
  ∃ v, speaker_of no_infer_speakers known_speakers (marker_line seg) = Ok v.

(** The loop invariant, after the cues [done] have been consumed. *)
Definition loop_inv (no_infer_speakers : bool) (known_speakers : list string)
    (done : list Caption.t) (σ : State) : Prop :=
  let acc := accepted "" done in
  last_line σ = from_option line_of "" (last acc) ∧
  Forall timed acc ∧
  map_inv known_speakers (speaker_map (resolver σ)) ∧
  Forall (resolved no_infer_speakers known_speakers) (segments acc) ∧
  match last (segments acc) with
  | None => blocks σ = [] ∧ start_time σ = None ∧ speaker σ = UNKNOWN_SPEAKER
  | Some seg =>
      blocks σ = block_of no_infer_speakers known_speakers
                   <$> removelast (segments acc) ∧
      active_block σ = block_of no_infer_speakers known_speakers seg ∧
      is_Some (start_time σ)
  end.

(** The text from the start of each line to the end of the text, line by
    line: the text itself and what follows each line feed, when not
    empty. *)
Definition nonempty (s : string) : list string :=
  if bool_decide (s = "") then [] else [s].

Fixpoint after_line_feeds (s : string) : list string :=
  match s with
  | EmptyString => []
  | String c s' =>
      (if bool_decide (c = Str.LF) then nonempty s' else [])
      ++ after_line_feeds s'
  end.

Definition line_starts (s : string) : list string :=
  nonempty s ++ after_line_feeds s.

(** The text from the first line that begins with a timestamp. *)
Definition from_first_timestamp (contents : string) : option string :=
  List.find (re_match timestamp_pattern) (line_starts contents).

Definition WEBVTT_header : string :=
  "WEBVTT" +:+ String Str.CR (String Str.LF "").

(** ** Concrete inputs used below *)

Definition vtt_file : string :=
  "WEBVTT" +:+ String Str.LF ("X-TIMESTAMP-MAP=LOCAL:00:00:00.000"
    +:+ String Str.LF (String Str.LF ("00:00:01.000 --> 00:00:02.000"
    +:+ String Str.LF (">> hello" +:+ String Str.LF "")))).

Definition vtt_cues : string :=
  "00:00:01.000 --> 00:00:02.000"
    +:+ String Str.LF (">> hello" +:+ String Str.LF "").


Definition cast : list string := ["smith"; "jones"; UNKNOWN_SPEAKER].

Definition fresh_resolver : Resolver := mkResolver (seed_map cast) 0.

Definition warm_resolver : Resolver :=
  mkResolver (<["smth" := "smith"]> (seed_map cast)) 3.

Definition scenario_A : list Caption.t :=
  [Caption.mk "00:00:00.000" "00:00:02.000" ">> smith: hello";
   Caption.mk "00:00:02.000" "00:00:04.000" "there"].

(** The block scenario A expects; its duration is 4.0. *)
Definition block_A : Block.t :=
  Block.mk (Some "00:00:00.000") (Some "00:00:04.000") (Float.of_int 4)
    "smith" ">> smith: hello there".

(** A leading cue with an empty line, a cue that repeats the line before
    it, and leading cues without a marker. *)
Definition blank_cue : Caption.t :=
  Caption.mk "00:00:00.000" "00:00:01.000" (String Str.NUL " ").

Definition repeated_cue : Caption.t :=
  Caption.mk "00:00:04.000" "00:00:06.000" "there ".

Definition leading_cues : list Caption.t :=
  [Caption.mk "00:00:00.000" "00:00:01.500" "call to order";
   Caption.mk "00:00:01.500" "00:00:02.000" "roll call"].

(** Cues that hold no marker line. *)
Definition marker_free (cs : list Caption.t) : Prop :=
  forallb (λ c, negb (is_marker c)) cs = true.

(** A turn whose two cues are four seconds apart, then the next turn. *)
Definition paused_turn : list Caption.t :=
  [Caption.mk "00:00:00.000" "00:00:01.000" ">> jones: well";
   Caption.mk "00:00:05.000" "00:00:06.000" "yes";
   Caption.mk "00:00:06.000" "00:00:07.000" ">> next"].

Definition paused_block : Block.t :=
  Block.mk (Some "00:00:00.000") (Some "00:00:06.000") (Float.of_int 2)
    "jones" ">> jones: well yes".

(** The wall-clock span of a block, from its start to its end. *)
Definition span (b : Block.t) : result Float.t :=
  match Block.start b, Block.end_ b with
  | Some s, Some e => calc_duration s e
  | _, _ => Raise TypeError
  end.

(** Scenario A followed by a second speaker turn. *)
Definition next_turn : Caption.t :=
  Caption.mk "00:00:04.000" "00:00:05.000" ">> smth: next".

Definition scenario_A_closed : list Caption.t := scenario_A ++ [next_turn].

(** Three turns whose cues last 0.1 and 0.2 seconds, 0.3 seconds, and 0.4
    seconds, one after the other without a gap. *)
Definition rounded_turns : list Caption.t :=
  [Caption.mk "00:00:00.000" "00:00:00.100" ">> smith: a";
   Caption.mk "00:00:00.100" "00:00:00.300" "b";
   Caption.mk "00:00:00.300" "00:00:00.600" ">> jones: c";
   Caption.mk "00:00:00.600" "00:00:01.000" ">> smith: d"].

(** The numbers Python prints as [0.30000000000000004],
    [0.6000000000000001] and [0.6]. *)
Definition f_0_30000000000000004 : Float.t :=
  S754_finite false 5404319552844596 (-54).

Definition f_0_6000000000000001 : Float.t :=
  S754_finite false 5404319552844596 (-53).

Definition f_0_6 : Float.t := S754_finite false 5404319552844595 (-53).

(** The blocks of the first two turns of [rounded_turns]. *)
Definition rounded_blocks : list Block.t :=
  [Block.mk (Some "00:00:00.000") (Some "00:00:00.300") f_0_30000000000000004
     "smith" ">> smith: a b";
   Block.mk (Some "00:00:00.300") (Some "00:00:00.600") (total_seconds 300000)
     "jones" ">> jones: c"].

(** "First minimum encountered wins": the first candidate, in the order of
    the list, that no candidate beats on distance. *)
Definition is_nearest (query : string) (knowns : list string) (c : string)
  : bool :=
  forallb (λ c', levenshtein_distance query c
                   <=? levenshtein_distance query c')%nat knowns.

Definition first_nearest (query : string) (knowns : list string)
  : option string :=
  List.find (is_nearest query knowns) knowns.

(** The order [min] uses on the pairs, as a proposition. *)
Definition pair_le (p q : nat * string) : Prop :=
  (p.1 < q.1)%nat ∨ (p.1 = q.1 ∧ String.le p.2 q.2).

(** ** More of [parse_captions.py] and [enumerate_captions.py] *)

(** A marker line whose speaker is looked up: it has a colon. *)
Definition labelled (c : Caption.t) : bool :=
  is_marker c && Str.contains ":" (line_of c).

(** A timestamp as the [webvtt] reader writes it, [HH:MM:SS.mmm]: twelve
    characters, digits around two colons and a dot. *)
Definition webvtt_timestamp (s : string) : bool :=
  bool_decide (String.length s = 12%nat) && re_match timestamp_pattern s.

Definition webvtt_cue (c : Caption.t) : bool :=
  webvtt_timestamp (Caption.start c) && webvtt_timestamp (Caption.end_ c).

(** The number written by the [n] digits at position [i] of a text. *)
Definition field (i n : nat) (s : string) : Z :=
  from_option fst 0 (parse_digits n 0 (Str.skip i s)).

(** The hour, the minute and the second of a timestamp [HH:MM:SS.mmm]
    are those of a time of day. *)
Definition in_day (s : string) : Prop :=
  field 0 2 s < 24 ∧ field 3 2 s < 60 ∧ field 6 2 s < 60.

(** The loop of [main] that adds up the speaking time of each speaker:
    [speaker_times[block.speaker] = speaker_times.get(block.speaker, 0)
    + block.duration]. *)
Definition speaker_times (blocks : list Block.t) : gmap string Float.t :=
  foldl (λ times block,
           <[Block.speaker block :=
               Float.add (default Float.zero (times !! Block.speaker block))
                 (Block.duration block)]> times)
        ∅ blocks.

(** The blocks of one speaker. *)
Definition blocks_of_speaker (s : string) (blocks : list Block.t)
  : list Block.t :=
  filter (λ b, Block.speaker b = s) blocks.

(** A text that ends a line: the empty text, or one that ends with a line
    feed. *)
Definition ends_line (pre : string) : Prop :=
  pre = "" ∨ ∃ p, pre = p +:+ String Str.LF "".

(** A text that does not begin, or does not end, with a character of
    [chars]. *)
Definition begins_clean (chars : list ascii) (s : string) : Prop :=
  match s with
  | String c _ => c ∉ chars
  | EmptyString => True
  end.

Definition ends_clean (chars : list ascii) (s : string) : Prop :=
  begins_clean chars (String.rev s).

(** The characters [normalize] strips. *)
Definition noise : list ascii := [Str.CR; Str.LF; Str.SP; Str.NUL].

(** *** [enumerate_captions.py] *)

(** [s.rsplit(sep, maxsplit=1)[0]] for a one-character [sep]: the part
    before the last separator, the whole string when there is none. *)
Fixpoint rsplit_head (sep : ascii) (s : string) : string :=
  match s with
  | EmptyString => EmptyString
  | String c s' =>
      if Str.contains sep s' then String c (rsplit_head sep s')
      else if bool_decide (c = sep) then EmptyString
      else String c s'
  end.

(** ["{}/captions.vtt".format(vod_url.rsplit("/", maxsplit=1)[0])]. *)
Definition caption_url (vod_url : string) : string :=
  rsplit_head "/" vod_url +:+ "/captions.vtt".

(** [s[:n]], and [s[:-n]] for a positive [n]. *)
Fixpoint take_str (n : nat) (s : string) : string :=
  match n, s with
  | S n', String c s' => String c (take_str n' s')
  | _, _ => EmptyString
  end.

Definition drop_last (n : nat) (s : string) : string :=
  take_str (String.length s - n) s.

(** [s.endswith(suffix)]. *)
Definition endswith (suffix s : string) : bool :=
  bool_decide (String.length suffix ≤ String.length s)%nat &&
  bool_decide (Str.skip (String.length s - String.length suffix) s = suffix).

(** The name of the transcript that [parse_new_captions] writes for a
    source file: [None] for the files the loop skips because their name
    does not end in [.vtt]. *)
Definition dest_filename (src_filename : string) : option string :=
  if negb (endswith ".vtt" src_filename) then None (* continue *)
  else Some (drop_last 4 src_filename +:+ ".txt").

(** An entry of the list of recordings, and a page of that list as the
    server answers it. *)
Module Vod.
Record t : Type := mk { id : Z; show : Z; url : string }.
End Vod.

Module VodPage.
Record t : Type := mk { vods : list Vod.t; count : Z }.
End VodPage.

(** The loop [for v in body["vods"]] of [fetch_new_raw_captions]. The
    call [retrieve_captions_for_vod(v)] acts on the outside world: its
    outcome is given by [retrieve], and the calls made are recorded in
    order in a trace. *)
Fixpoint visit_vods (retrieve : Vod.t → result ()) (vods : list Vod.t)
    (known_vods : gset Z) (trace : list Vod.t)
  : result (gset Z * list Vod.t) :=
  match vods with
  | [] => Ok (known_vods, trace)
  | v :: vods' =>
      if bool_decide (Vod.id v ∈ known_vods)
      then visit_vods retrieve vods' known_vods trace (* continue *)
      else
        _ ← retrieve v;
        visit_vods retrieve vods' ({[Vod.id v]} ∪ known_vods) (trace ++ [v])
  end.

Definition page_size : Z := 100.

(** The [while True] loop of [fetch_new_raw_captions], at most [fuel]
    page requests: [None] when the requests run out. The answer of the
    server to the request for a page is given by [list_vods]. *)
Fixpoint fetch_pages (list_vods : nat → result VodPage.t)
    (retrieve : Vod.t → result ()) (fuel : nat) (page : nat)
    (known_vods : gset Z) (trace : list Vod.t)
  : option (result (gset Z * list Vod.t)) :=
  match fuel with
  | O => None
  | S fuel' =>
      match list_vods page with
      | Raise e => Some (Raise e)
      | Ok body =>
          match visit_vods retrieve (VodPage.vods body) known_vods trace with
          | Raise e => Some (Raise e)
          | Ok (known_vods, trace) =>
              if bool_decide ((Z.of_nat page + 1) * page_size
                              > VodPage.count body)
              then Some (Ok (known_vods, trace)) (* break *)
              else fetch_pages list_vods retrieve fuel' (S page)
                     known_vods trace
          end
      end
  end.

(** [fetch_new_raw_captions(known_vods)]: the set returned, with the trace
    of the recordings whose captions were retrieved. *)
Definition fetch_new_raw_captions (list_vods : nat → result VodPage.t)
    (retrieve : Vod.t → result ()) (fuel : nat) (known_vods : list Z)
  : option (result (gset Z * list Vod.t)) :=
  fetch_pages list_vods retrieve fuel 0 (list_to_set known_vods) [].

(** Concrete inputs for the properties below. *)
Definition one_page (page : nat) : result VodPage.t :=
  Ok (VodPage.mk [Vod.mk 7 70 "https://host/a/vod.mp4";
                  Vod.mk 8 80 "https://host/b/vod.mp4";
                  Vod.mk 7 70 "https://host/a/vod.mp4"] 3).

Definition retrieve_ok (v : Vod.t) : result () := Ok ().

(** * Proofs *)

(** ** The order of the pairs *)

Lemma ltb_false_le (s t : string) : String.ltb s t = false ↔ String.le t s.
Proof.
  unfold String.le, String.ltb, String.leb.
  rewrite (String.compare_antisym s t).
  destruct (String.compare t s); simpl; intuition (try done).
Qed.

Lemma ltb_true_le (s t : string) : String.ltb s t = true → String.le s t.
Proof.
  unfold String.le, String.ltb, String.leb.
  destruct (String.compare s t); simpl; intuition (try done).
Qed.

Lemma tuple_lt_false (p q : nat * string) :
  tuple_lt p q = false → pair_le q p.
Proof.
  unfold tuple_lt, pair_le. intros H.
  apply orb_false_iff in H as [H1 H2].
  apply Nat.ltb_ge in H1.
  apply andb_false_iff in H2 as [H2|H2].
  - apply Nat.eqb_neq in H2. left. lia.
  - apply ltb_false_le in H2.
    destruct (decide (q.1 = p.1)) as [E|E]; [right; done | left; lia].
Qed.

Lemma tuple_lt_true (p q : nat * string) :
  tuple_lt p q = true → pair_le p q.
Proof.
  unfold tuple_lt, pair_le. intros H.
  apply orb_true_iff in H as [H|H].
  - apply Nat.ltb_lt in H. by left.
  - apply andb_true_iff in H as [H1 H2]. apply Nat.eqb_eq in H1.
    right. split; [done | by apply ltb_true_le].
Qed.

Lemma pair_le_refl (p : nat * string) : pair_le p p.
Proof. right. split; [done | reflexivity]. Qed.

Lemma pair_le_trans (p q r : nat * string) :
  pair_le p q → pair_le q r → pair_le p r.
Proof.
  unfold pair_le. intros [H1|[H1 H1']] [H2|[H2 H2']].
  - left. lia.
  - left. lia.
  - left. lia.
  - right. split; [lia | by etrans].
Qed.

Lemma min_from_spec (items : list (nat * string)) (cur : nat * string) :
  min_from cur items ∈ cur :: items ∧
  ∀ y, y ∈ cur :: items → pair_le (min_from cur items) y.
Proof.
  revert cur. induction items as [|item items IH]; intros cur; simpl.
  - split; [by left |]. intros y Hy. apply list_elem_of_singleton in Hy.
    subst. apply pair_le_refl.
  - destruct (IH (if tuple_lt item cur then item else cur)) as [Hin Hle].
    split.
    + apply elem_of_cons in Hin as [Hin|Hin].
      * rewrite Hin. destruct (tuple_lt item cur); [right; left | left].
      * right. by right.
    + intros y Hy.
      assert (pair_le (min_from (if tuple_lt item cur then item else cur)
                         items)
                (if tuple_lt item cur then item else cur)) as Hcur
        by (apply Hle; left).
      apply elem_of_cons in Hy as [->|Hy];
        [|apply elem_of_cons in Hy as [->|Hy]].
      * eapply pair_le_trans; [exact Hcur|].
        destruct (tuple_lt item cur) eqn:E;
          [by apply tuple_lt_true | apply pair_le_refl].
      * eapply pair_le_trans; [exact Hcur|].
        destruct (tuple_lt item cur) eqn:E;
          [apply pair_le_refl | by apply tuple_lt_false].
      * apply Hle. by right.
Qed.

(** [get_closest_match] fails on the empty list only, and its answer is a
    candidate of the list that is least for [pair_le]. *)
Lemma get_closest_match_spec (query : string) (knowns : list string)
    (best : string) :
  get_closest_match query knowns = Ok best →
  best ∈ knowns ∧
  ∀ c, c ∈ knowns →
    pair_le (levenshtein_distance query best, best)
            (levenshtein_distance query c, c).
Proof.
  unfold get_closest_match. destruct knowns as [|k knowns]; [done|].
  cbn [py_min fmap list_fmap mbind result_bind].
  pose proof (min_from_spec
    ((λ c, (levenshtein_distance query c, c)) <$> knowns)
    (levenshtein_distance query k, k)) as [Hin Hle].
  change ((levenshtein_distance query k, k)
          :: ((λ c, (levenshtein_distance query c, c)) <$> knowns))
    with ((λ c, (levenshtein_distance query c, c)) <$> (k :: knowns))
    in Hin, Hle.
  destruct (min_from _ _) as [d b]. intros [= <-].
  apply list_elem_of_fmap in Hin as (b' & [= -> ->] & Hbin).
  split; [done|].
  intros c Hc. apply Hle. apply list_elem_of_fmap. by exists c.
Qed.

Lemma get_closest_match_total (query : string) (knowns : list string) :
  knowns ≠ [] → ∃ best, get_closest_match query knowns = Ok best.
Proof.
  destruct knowns as [|k knowns]; [done|]. intros _.
  unfold get_closest_match. simpl.
  destruct (min_from _ _) as [d b]. by exists b.
Qed.

(** ** The dictionary and the resolver *)

Lemma foldl_insert_lookup (l : list string) (m : gmap string string)
    (k : string) :
  foldl (λ m s, <[s := s]> m) m l !! k
  = if bool_decide (k ∈ l) then Some k else m !! k.
Proof.
  revert m. induction l as [|x l IH]; intros m.
  - by rewrite bool_decide_eq_false_2 by apply not_elem_of_nil.
  - cbn [foldl]. rewrite IH. destruct (decide (k ∈ l)) as [Hl|Hl].
    + rewrite !bool_decide_eq_true_2; [done | by right | done].
    + rewrite (bool_decide_eq_false_2 _ Hl).
      destruct (decide (k = x)) as [->|Hx].
      * rewrite lookup_insert_eq. by rewrite bool_decide_eq_true_2 by left.
      * rewrite lookup_insert_ne by done.
        rewrite bool_decide_eq_false_2; [done|].
        intros [?|?]%elem_of_cons; done.
Qed.

Lemma seed_map_lookup (known_speakers : list string) (k : string) :
  seed_map known_speakers !! k
  = if bool_decide (k ∈ known_speakers) then Some k else None.
Proof. unfold seed_map. by rewrite foldl_insert_lookup, lookup_empty. Qed.

Lemma map_inv_seed (known_speakers : list string) :
  map_inv known_speakers (seed_map known_speakers).
Proof.
  split.
  - intros k Hk. rewrite seed_map_lookup. by rewrite bool_decide_eq_true_2.
  - intros k v. rewrite seed_map_lookup. unfold resolve.
    destruct (bool_decide (k ∈ known_speakers)); [|done]. by intros [= ->].
Qed.

Lemma infer_speaker_spec (no_infer_speakers : bool)
    (known_speakers : list string) (raw v : string) (r r' : Resolver) :
  map_inv known_speakers (speaker_map r) →
  infer_speaker no_infer_speakers known_speakers raw r = Ok (v, r') →
  resolve no_infer_speakers known_speakers raw = Ok v ∧
  map_inv known_speakers (speaker_map r') ∧
  speaker_map r ⊆ speaker_map r'.
Proof.
  intros [Hseed Hval]. unfold infer_speaker, resolve.
  destruct no_infer_speakers; [by intros [= -> ->]|].
  destruct (speaker_map r !! raw) as [cached|] eqn:Hlook.
  - intros [= -> ->]. split; [|done]. by apply Hval.
  - destruct (get_closest_match raw known_speakers) as [best|e] eqn:Hbest;
      [|done].
    cbn. intros [= -> <-]. simpl.
    assert (raw ∉ known_speakers) as Hnot.
    { intros Hin. apply Hseed in Hin. congruence. }
    rewrite (bool_decide_eq_false_2 _ Hnot).
    split; [done|]. split; [split|].
    + intros k Hk. rewrite lookup_insert_ne; [by apply Hseed|].
      intros ->. done.
    + intros k v'. destruct (decide (raw = k)) as [<-|Hne].
      * rewrite lookup_insert_eq. intros [= <-]. unfold resolve.
        by rewrite (bool_decide_eq_false_2 _ Hnot).
      * rewrite lookup_insert_ne by done. apply Hval.
    + by apply insert_subseteq.
Qed.

(** ** Lists of cues: the filter and the segments *)

Lemma run_loop_app (ni : bool) (ks : list string) (l1 l2 : list Caption.t)
    (σ : State) :
  run_loop ni ks (l1 ++ l2) σ = run_loop ni ks l1 σ ≫= run_loop ni ks l2.
Proof.
  revert σ. induction l1 as [|c l1 IH]; intros σ; simpl; [done|].
  destruct (loop_body ni ks c σ) as [σ'|e]; simpl; [apply IH | done].
Qed.

Lemma from_option_last_cons {A B : Type} (f : A → B) (d : B) (x : A)
    (l : list A) :
  from_option f d (last (x :: l)) = from_option f (f x) (last l).
Proof. rewrite last_cons. by destruct (last l). Qed.

Lemma accepted_snoc (l : list Caption.t) (c : Caption.t) (prev : string) :
  accepted prev (l ++ [c])
  = accepted prev l
    ++ (if bool_decide
             (line_of c = from_option line_of prev (last (accepted prev l)))
        then [] else [c]).
Proof.
  revert prev. induction l as [|x l IH]; intros prev; simpl.
  - by destruct (bool_decide (line_of c = prev)).
  - destruct (bool_decide (line_of x = prev)); [apply IH|].
    rewrite IH. by rewrite from_option_last_cons.
Qed.

Lemma take_while_all {A : Type} (p : A → bool) (l : list A) :
  forallb p l = true → take_while p l = l.
Proof.
  induction l as [|x l IH]; simpl; [done|].
  intros [Hx Hl]%andb_true_iff. rewrite Hx. by rewrite IH.
Qed.

Lemma take_while_app_stop {A : Type} (p : A → bool) (l l' : list A) :
  forallb p l = false → take_while p (l ++ l') = take_while p l.
Proof.
  induction l as [|x l IH]; simpl; [done|].
  destruct (p x); simpl; [|done]. intros H. by rewrite IH.
Qed.

Lemma segments_nil_iff (l : list Caption.t) :
  segments l = [] ↔ forallb (λ c, negb (is_marker c)) l = true.
Proof.
  induction l as [|x l IH]; simpl; [done|].
  destruct (is_marker x); simpl; [split; done | apply IH].
Qed.

Lemma unattributed_snoc_marker (l : list Caption.t) (c : Caption.t) :
  is_marker c = true → unattributed (l ++ [c]) = unattributed l.
Proof.
  intros Hc. unfold unattributed.
  induction l as [|x l IH]; simpl; [by rewrite Hc|].
  destruct (is_marker x); simpl; [done | by rewrite IH].
Qed.

Lemma segments_snoc (l : list Caption.t) (c : Caption.t) :
  segments (l ++ [c])
  = if is_marker c then segments l ++ [[c]]
    else match last (segments l) with
         | None => []
         | Some seg => removelast (segments l) ++ [seg ++ [c]]
         end.
Proof.
  induction l as [|x l IH]; simpl.
  - by destruct (is_marker c).
  - destruct (is_marker x) eqn:Hx; [|apply IH].
    rewrite IH. destruct (is_marker c) eqn:Hc.
    + by rewrite unattributed_snoc_marker.
    + destruct (last (segments l)) as [seg|] eqn:Hlast.
      * assert (segments l ≠ []) as Hne by (intros E; by rewrite E in Hlast).
        rewrite last_cons, Hlast.
        assert (unattributed (l ++ [c]) = unattributed l) as ->.
        { apply take_while_app_stop.
          destruct (forallb (λ c0, negb (is_marker c0)) l) eqn:E; [|done].
          by apply segments_nil_iff in E. }
        destruct (segments l); [done|]. done.
      * apply last_None in Hlast. rewrite Hlast. simpl.
        apply segments_nil_iff in Hlast.
        unfold unattributed.
        rewrite !take_while_all; [done | done |].
        rewrite forallb_app. simpl. by rewrite Hlast, Hc.
Qed.

Lemma append_assoc (s t u : string) : (s +:+ t) +:+ u = s +:+ (t +:+ u).
Proof.
  induction s as [|a s IH]; [done|].
  change (String a ((s +:+ t) +:+ u) = String a (s +:+ (t +:+ u))).
  by rewrite IH.
Qed.

Lemma join_snoc (sep x : string) (l : list string) :
  l ≠ [] → Str.join sep (l ++ [x]) = Str.join sep l +:+ sep +:+ x.
Proof.
  induction l as [|y l IH]; [done|]. intros _.
  destruct l as [|z l]; [done|].
  change (Str.join sep ((y :: z :: l) ++ [x]))
    with (y +:+ sep +:+ Str.join sep ((z :: l) ++ [x])).
  rewrite IH by done.
  change (Str.join sep (y :: z :: l))
    with (y +:+ sep +:+ Str.join sep (z :: l)).
  by rewrite !append_assoc.
Qed.

Lemma removelast_last_Some {A : Type} (l : list A) (x : A) :
  last l = Some x → removelast l ++ [x] = l.
Proof. intros [l' ->]%last_Some. by rewrite removelast_last. Qed.

(** ** One iteration of the loop *)

Lemma marker_speaker_spec (ni : bool) (ks : list string) (line v : string)
    (r r' : Resolver) :
  map_inv ks (speaker_map r) →
  marker_speaker ni ks line r = Ok (v, r') →
  speaker_of ni ks line = Ok v ∧
  map_inv ks (speaker_map r') ∧
  speaker_map r ⊆ speaker_map r'.
Proof.
  intros Hinv. unfold marker_speaker, speaker_of.
  destruct (Str.contains ":" line).
  - by apply infer_speaker_spec.
  - by intros [= <- <-].
Qed.

Lemma loop_body_duplicate (ni : bool) (ks : list string) (c : Caption.t)
    (σ : State) :
  line_of c = last_line σ → loop_body ni ks c σ = Ok σ.
Proof.
  intros H. unfold loop_body. fold (line_of c).
  by rewrite bool_decide_eq_true_2.
Qed.

(** The two ways an accepted cue changes the state. *)
Lemma loop_body_accepted (ni : bool) (ks : list string) (c : Caption.t)
    (σ σ' : State) :
  line_of c ≠ last_line σ →
  loop_body ni ks c σ = Ok σ' →
  timed c ∧
  if is_marker c
  then ∃ spk r',
    marker_speaker ni ks (line_of c) (resolver σ) = Ok (spk, r') ∧
    σ' = mkState r' (record_previous σ) (line_of c)
           (Some (Caption.start c)) (Some (Caption.end_ c))
           (Float.add Float.zero (contribution c)) (line_of c) spk
  else
    σ' = mkState (resolver σ) (blocks σ) (line_of c) (start_time σ)
           (Some (Caption.end_ c)) (Float.add (duration σ) (contribution c))
           (current_speech σ +:+ " " +:+ line_of c) (speaker σ).
Proof.
  intros Hne. unfold loop_body, timed, contribution, is_marker.
  fold (line_of c). rewrite (bool_decide_eq_false_2 _ Hne).
  destruct (Str.startswith ">>" (line_of c)).
  - unfold marker_branch. cbn [resolver].
    destruct (marker_speaker ni ks (line_of c) (resolver σ))
      as [[spk r']|e]; [|done].
    cbn. destruct (calc_duration _ _) as [d|e]; [|done].
    cbn. intros [= <-]. split; [done|]. by exists spk, r'.
  - cbn. destruct (calc_duration _ _) as [d|e]; [|done].
    cbn. by intros [= <-].
Qed.

Lemma total_contribution_snoc (l : list Caption.t) (c : Caption.t) :
  total_contribution (l ++ [c])
  = Float.add (total_contribution l) (contribution c).
Proof. unfold total_contribution. by rewrite foldl_snoc. Qed.

Lemma block_of_snoc (ni : bool) (ks : list string) (seg : list Caption.t)
    (c : Caption.t) :
  seg ≠ [] →
  block_of ni ks (seg ++ [c])
  = Block.mk (Block.start (block_of ni ks seg)) (Some (Caption.end_ c))
      (Float.add (Block.duration (block_of ni ks seg)) (contribution c))
      (Block.speaker (block_of ni ks seg))
      (Block.speech (block_of ni ks seg) +:+ " " +:+ line_of c).
Proof.
  intros Hne. destruct seg as [|x seg]; [done|].
  unfold block_of. cbn [Block.start Block.duration Block.speaker
    Block.speech].
  rewrite last_snoc, total_contribution_snoc, fmap_snoc.
  by rewrite join_snoc.
Qed.

Lemma loop_body_inv (ni : bool) (ks : list string) (done : list Caption.t)
    (c : Caption.t) (σ σ' : State) :
  loop_inv ni ks done σ →
  loop_body ni ks c σ = Ok σ' →
  loop_inv ni ks (done ++ [c]) σ'.
Proof.
  intros (Hlast & Htimed & Hmap & Hres & Hseg) Hbody. unfold loop_inv.
  rewrite accepted_snoc, <- Hlast.
  destruct (decide (line_of c = last_line σ)) as [Hdup|Hnew].
  { rewrite loop_body_duplicate in Hbody by done. injection Hbody as <-.
    rewrite bool_decide_eq_true_2 by done. rewrite app_nil_r. done. }
  rewrite bool_decide_eq_false_2 by done.
  apply loop_body_accepted in Hbody as [Hc Hbody]; [|done].
  rewrite last_snoc, segments_snoc. cbn [from_option].
  destruct (is_marker c).
  - destruct Hbody as (spk & r' & Hspk & ->). cbn.
    apply marker_speaker_spec in Hspk as (Hspk & Hmap' & _); [|done].
    split; [done|].
    split; [apply Forall_app_2; [done | by apply Forall_singleton]|].
    split; [done|].
    split; [apply Forall_app_2; [done | apply Forall_singleton; by exists spk]|].
    rewrite last_snoc, removelast_last.
    split; [|split; [|by eexists]].
    + unfold record_previous.
      destruct (last (segments (accepted "" done))) as [seg|] eqn:Hl.
      * destruct Hseg as (Hb & Ha & [t Ht]). rewrite Ht, Hb, Ha.
        rewrite <- fmap_snoc. by rewrite removelast_last_Some.
      * destruct Hseg as (Hb & Hs & _). apply last_None in Hl.
        by rewrite Hs, Hb, Hl.
    + unfold block_of, total_contribution. cbn. by rewrite Hspk.
  - subst σ'. cbn.
    split; [done|].
    split; [apply Forall_app_2; [done | by apply Forall_singleton]|].
    split; [done|].
    destruct (last (segments (accepted "" done))) as [seg|] eqn:Hl.
    + destruct Hseg as (Hb & Ha & [t Ht]).
      assert (seg ≠ []) as Hne.
      { intros ->. apply (f_equal Block.start) in Ha. cbn in Ha.
        congruence. }
      apply last_Some in Hl as [segs Hsegs]. rewrite Hsegs in *.
      rewrite removelast_last in *. rewrite last_snoc.
      apply Forall_app in Hres as [Hres1 Hres2].
      rewrite Forall_singleton in Hres2.
      split; [apply Forall_app_2; [done | apply Forall_singleton]|].
      * unfold resolved, marker_line in *. by destruct seg.
      * rewrite removelast_last. split; [done|]. split; [|by eexists].
        rewrite block_of_snoc by done. by rewrite <- Ha.
    + split; [constructor | done].
Qed.

Lemma run_loop_inv (ni : bool) (ks : list string) (l done : list Caption.t)
    (σ σ' : State) :
  loop_inv ni ks done σ →
  run_loop ni ks l σ = Ok σ' →
  loop_inv ni ks (done ++ l) σ'.
Proof.
  revert done σ. induction l as [|c l IH]; intros done σ Hinv; simpl.
  - intros [= <-]. by rewrite app_nil_r.
  - destruct (loop_body ni ks c σ) as [σ1|e] eqn:Hbody; [|done]. cbn.
    intros Hrun. rewrite (assoc_L (++) done [c] l : done ++ c :: l = _).
    eapply IH; [|done]. by eapply loop_body_inv.
Qed.

Lemma initial_state_inv (ni : bool) (ks : list string) :
  loop_inv ni ks [] (initial_state ks).
Proof.
  unfold loop_inv. cbn. repeat split; try done.
  - apply map_inv_seed.
  - apply map_inv_seed.
Qed.

(** The blocks of a successful run are the blocks of the segments of the
    accepted cues, the last segment apart. *)
Lemma get_speech_blocks_spec (captions : list Caption.t) (ni : bool)
    (ks : list string) (bs : list Block.t) (m : gmap string string) :
  get_speech_blocks captions ni ks = Ok (bs, m) →
  bs = block_of ni ks <$> removelast (segments (accepted "" captions)) ∧
  Forall timed (accepted "" captions) ∧
  Forall (resolved ni ks) (segments (accepted "" captions)) ∧
  map_inv ks m.
Proof.
  unfold get_speech_blocks.
  destruct (run_loop ni ks captions (initial_state ks)) as [σ|e] eqn:Hrun;
    [|done].
  cbn. intros [= <- <-].
  apply (run_loop_inv ni ks captions [] _ _ (initial_state_inv ni ks)) in Hrun.
  destruct Hrun as (_ & Htimed & Hmap & Hres & Hseg). cbn in *.
  repeat split; try done.
  - destruct (last (segments (accepted "" captions))) eqn:Hl.
    + by destruct Hseg.
    + apply last_None in Hl. rewrite Hl. by destruct Hseg.
  - apply Hmap.
  - apply Hmap.
Qed.

(** ** Nearest-neighbor lookup: ties *)

(** C3, as the specification states it, fails: for the query "b" and the
    known speakers "c", "a", "UNKNOWN" (in that order), "c" and "a" are both
    at the least distance 1 and "c" comes first, yet the lookup answers
    "a". *)
Lemma closest_match_tie_is_not_first :
  first_nearest "b" ["c"; "a"; UNKNOWN_SPEAKER] = Some "c" ∧
  levenshtein_distance "b" "c" = levenshtein_distance "b" "a" ∧
  get_closest_match "b" ["c"; "a"; UNKNOWN_SPEAKER] = Ok "a".
Proof. vm_compute. done. Qed.

(** C3, amended: on a non-empty list of known speakers the lookup returns a
    candidate of the list at the least Levenshtein distance from the query,
    and among the candidates at that distance the one that is least in the
    code-point order of strings, wherever it stands in the list. *)
Theorem closest_match_tie_is_least_string (query : string)
    (knowns : list string) :
  knowns ≠ [] →
  ∃ best,
    get_closest_match query knowns = Ok best ∧
    best ∈ knowns ∧
    (∀ c, c ∈ knowns →
       (levenshtein_distance query best ≤ levenshtein_distance query c)%nat) ∧
    (∀ c, c ∈ knowns →
       levenshtein_distance query c = levenshtein_distance query best →
       String.le best c).
Proof.
  intros Hne. destruct (get_closest_match_total query knowns Hne) as [best H].
  exists best. split; [done|].
  apply get_closest_match_spec in H as [Hin Hle].
  split; [done|]. split.
  - intros c Hc. destruct (Hle c Hc) as [Hlt|[Heq _]]; simpl in *; lia.
  - intros c Hc Hd. destruct (Hle c Hc) as [Hlt|[_ Hs]]; simpl in *;
      [lia | done].
Qed.

Lemma closest_match_tie_is_least_string_witness :
  ∃ best,
    get_closest_match "b" ["c"; "a"; UNKNOWN_SPEAKER] = Ok best ∧
    best ∈ ["c"; "a"; UNKNOWN_SPEAKER] ∧
    (∀ c, c ∈ ["c"; "a"; UNKNOWN_SPEAKER] →
       (levenshtein_distance "b" best ≤ levenshtein_distance "b" c)%nat) ∧
    (∀ c, c ∈ ["c"; "a"; UNKNOWN_SPEAKER] →
       levenshtein_distance "b" c = levenshtein_distance "b" best →
       String.le best c).
Proof.
  apply (closest_match_tie_is_least_string "b" ["c"; "a"; UNKNOWN_SPEAKER]).
  discriminate.
Defined.

(** ** The resolver: memoization, pass-through, range *)

Lemma infer_speaker_mono (ni : bool) (ks : list string) (raw v : string)
    (r r' : Resolver) :
  infer_speaker ni ks raw r = Ok (v, r') →
  speaker_map r ⊆ speaker_map r' ∧ (lev_calls r ≤ lev_calls r')%nat.
Proof.
  unfold infer_speaker. destruct ni; [by intros [= -> ->]|].
  destruct (speaker_map r !! raw) as [cached|] eqn:Hlook.
  - by intros [= -> ->].
  - destruct (get_closest_match raw ks) as [best|e]; [|done].
    cbn. intros [= -> <-]. simpl. split; [by apply insert_subseteq | lia].
Qed.

Lemma loop_body_mono (ni : bool) (ks : list string) (c : Caption.t)
    (σ σ' : State) :
  loop_body ni ks c σ = Ok σ' →
  speaker_map (resolver σ) ⊆ speaker_map (resolver σ').
Proof.
  intros Hbody.
  destruct (decide (line_of c = last_line σ)) as [Hdup|Hnew].
  { rewrite loop_body_duplicate in Hbody by done. by injection Hbody as <-. }
  apply loop_body_accepted in Hbody as [_ Hbody]; [|done].
  destruct (is_marker c).
  - destruct Hbody as (spk & r' & Hspk & ->). cbn.
    unfold marker_speaker in Hspk.
    destruct (Str.contains ":" (line_of c)).
    + by apply infer_speaker_mono in Hspk as [? _].
    + by injection Hspk as _ <-.
  - by subst σ'.
Qed.

Lemma run_loop_mono (ni : bool) (ks : list string) (l : list Caption.t)
    (σ σ' : State) :
  run_loop ni ks l σ = Ok σ' →
  speaker_map (resolver σ) ⊆ speaker_map (resolver σ').
Proof.
  revert σ. induction l as [|c l IH]; intros σ; simpl.
  - by intros [= <-].
  - destruct (loop_body ni ks c σ) as [σ1|e] eqn:Hbody; [|done]. cbn.
    intros Hrun. etrans; [by eapply loop_body_mono | by apply IH].
Qed.

(** C4: with inference enabled, a label that has been resolved resolves
    again to the same value, from the dictionary and with the resolver left
    as it was, the count of distance computations included (a miss adds one
    computation per known speaker); and through any further cues of the run
    the dictionary only grows, so the entry of the label stays what it
    is. *)
Theorem infer_speaker_memoized (ks : list string) (raw v : string)
    (r r1 : Resolver) :
  infer_speaker false ks raw r = Ok (v, r1) →
  infer_speaker false ks raw r1 = Ok (v, r1) ∧
  speaker_map r1 !! raw = Some v ∧
  (speaker_map r !! raw = None →
   lev_calls r1 = (lev_calls r + length ks)%nat) ∧
  ∀ (ni : bool) (l : list Caption.t) (σ σ' : State),
    resolver σ = r1 →
    run_loop ni ks l σ = Ok σ' →
    speaker_map r1 ⊆ speaker_map (resolver σ') ∧
    speaker_map (resolver σ') !! raw = Some v.
Proof.
  intros H.
  assert (speaker_map r1 !! raw = Some v) as Hlook.
  { unfold infer_speaker in H.
    destruct (speaker_map r !! raw) as [cached|] eqn:Hl.
    - by injection H as -> ->.
    - destruct (get_closest_match raw ks) as [best|e]; [|done].
      cbn in H. injection H as -> <-. simpl. apply lookup_insert_eq. }
  split; [by unfold infer_speaker; rewrite Hlook|].
  split; [done|]. split.
  - intros Hnone. unfold infer_speaker in H. rewrite Hnone in H.
    destruct (get_closest_match raw ks) as [best|e]; [|done].
    cbn in H. by injection H as -> <-.
  - intros ni l σ σ' <- Hrun. apply run_loop_mono in Hrun.
    split; [done|]. by eapply lookup_weaken.
Qed.

Lemma infer_speaker_memoized_witness :
  infer_speaker false cast "smth" warm_resolver = Ok ("smith", warm_resolver) ∧
  speaker_map warm_resolver !! "smth" = Some "smith" ∧
  (speaker_map fresh_resolver !! "smth" = None →
   lev_calls warm_resolver = (lev_calls fresh_resolver + length cast)%nat) ∧
  ∀ (ni : bool) (l : list Caption.t) (σ σ' : State),
    resolver σ = warm_resolver →
    run_loop ni cast l σ = Ok σ' →
    speaker_map warm_resolver ⊆ speaker_map (resolver σ') ∧
    speaker_map (resolver σ') !! "smth" = Some "smith".
Proof.
  apply (infer_speaker_memoized cast "smth" "smith" fresh_resolver
           warm_resolver).
  vm_compute. reflexivity.
Defined.

Lemma resolve_in_known (ks : list string) (raw v : string) :
  resolve false ks raw = Ok v →
  v ∈ ks ∧
  ((raw ∈ ks ∧ v = raw) ∨ ((raw ∉ ks) ∧ get_closest_match raw ks = Ok v)).
Proof.
  unfold resolve. destruct (decide (raw ∈ ks)) as [Hin|Hnot].
  - rewrite bool_decide_eq_true_2 by done. intros [= <-]. split; [done|].
    by left.
  - rewrite bool_decide_eq_false_2 by done. intros H. split.
    + by apply get_closest_match_spec in H as [? _].
    + by right.
Qed.

Lemma map_inv_values (ks : list string) (m : gmap string string)
    (k v : string) :
  map_inv ks m → m !! k = Some v → v ∈ ks.
Proof. intros [_ Hval] Hk. by apply Hval, resolve_in_known in Hk as [? _]. Qed.

Lemma UNKNOWN_in_loaded (lines : list string) :
  UNKNOWN_SPEAKER ∈ load_known_speakers lines.
Proof. unfold load_known_speakers. apply elem_of_app. right. by left. Qed.

(** C7: with inference disabled the resolver returns the raw label as it
    is and leaves the resolver state, dictionary and counter, as it was,
    whatever the dictionary holds; a whole run in that mode returns the
    dictionary it started from. *)
Theorem no_infer_passthrough (ks : list string) (raw : string) (r : Resolver) :
  infer_speaker true ks raw r = Ok (raw, r) ∧
  ∀ (captions : list Caption.t) (bs : list Block.t) (m : gmap string string),
    get_speech_blocks captions true ks = Ok (bs, m) → m = seed_map ks.
Proof.
  split; [done|].
  intros captions bs m. unfold get_speech_blocks.
  destruct (run_loop true ks captions (initial_state ks)) as [σ|e] eqn:Hrun;
    [|done].
  cbn. intros [= <- <-].
  assert (∀ l σ0 σ1, run_loop true ks l σ0 = Ok σ1 →
                     resolver σ1 = resolver σ0) as Hkeep.
  { clear. induction l as [|c l IH]; intros σ0 σ1; simpl.
    - by intros [= <-].
    - destruct (loop_body true ks c σ0) as [σ'|e] eqn:Hbody; [|done]. cbn.
      intros Hrun. rewrite (IH _ _ Hrun).
      destruct (decide (line_of c = last_line σ0)) as [Hdup|Hnew].
      { rewrite loop_body_duplicate in Hbody by done.
        by injection Hbody as <-. }
      apply loop_body_accepted in Hbody as [_ Hbody]; [|done].
      destruct (is_marker c).
      + destruct Hbody as (spk & r' & Hspk & ->). cbn.
        unfold marker_speaker, infer_speaker in Hspk.
        destruct (Str.contains ":" (line_of c)); by injection Hspk as _ <-.
      + by subst σ'. }
  by rewrite (Hkeep _ _ _ Hrun).
Qed.

Lemma no_infer_passthrough_witness :
  infer_speaker true cast "smth" fresh_resolver = Ok ("smth", fresh_resolver) ∧
  ∀ (captions : list Caption.t) (bs : list Block.t) (m : gmap string string),
    get_speech_blocks captions true cast = Ok (bs, m) → m = seed_map cast.
Proof. apply (no_infer_passthrough cast "smth" fresh_resolver). Defined.

(** C10: with inference enabled, a resolution made on a dictionary of the
    run returns a known speaker, the label itself when it is known and the
    nearest neighbor otherwise, and leaves a dictionary of the run; every
    value of the dictionary a run returns is a known speaker; every emitted
    block whose marker line has a colon has a known speaker; and with the
    list [main] builds, which ends with the placeholder, so has every
    emitted block. *)
Theorem speakers_are_known (ks : list string) :
  (∀ (raw v : string) (r r' : Resolver),
     map_inv ks (speaker_map r) →
     infer_speaker false ks raw r = Ok (v, r') →
     v ∈ ks ∧
     ((raw ∈ ks ∧ v = raw) ∨
      ((raw ∉ ks) ∧ get_closest_match raw ks = Ok v)) ∧
     map_inv ks (speaker_map r')) ∧
  (∀ lines : list string, UNKNOWN_SPEAKER ∈ load_known_speakers lines) ∧
  (∀ (captions : list Caption.t) (bs : list Block.t)
     (m : gmap string string),
     get_speech_blocks captions false ks = Ok (bs, m) →
     (∀ k v, m !! k = Some v → v ∈ ks) ∧
     Forall2 (λ seg b,
                (Str.contains ":" (marker_line seg) = true →
                 Block.speaker b ∈ ks) ∧
                (Str.contains ":" (marker_line seg) = false →
                 Block.speaker b = UNKNOWN_SPEAKER))
       (removelast (segments (accepted "" captions))) bs ∧
     (UNKNOWN_SPEAKER ∈ ks → Forall (λ b, Block.speaker b ∈ ks) bs)).
Proof.
  split; [|split; [apply UNKNOWN_in_loaded|]].
  - intros raw v r r' Hinv H.
    apply infer_speaker_spec in H as (Hres & Hinv' & _); [|done].
    apply resolve_in_known in Hres as [Hin Hcase]. done.
  - intros captions bs m H.
    apply get_speech_blocks_spec in H as (-> & _ & Hres & Hinv).
    split; [intros k v; by apply map_inv_values|].
    assert (Forall (resolved false ks)
              (removelast (segments (accepted "" captions)))) as Hres'.
    { destruct (last (segments (accepted "" captions))) as [seg|] eqn:Hl.
      - apply last_Some in Hl as [segs Hsegs]. rewrite Hsegs in *.
        rewrite removelast_last. by apply Forall_app in Hres as [? _].
      - apply last_None in Hl. rewrite Hl. constructor. }
    clear Hres. induction Hres' as [|seg segs [v Hv] _ IH]; cbn.
    { split; [constructor|]. intros _. constructor. }
    destruct IH as [IH1 IH2].
    assert (Block.speaker (block_of false ks seg) = v) as Hspk.
    { unfold block_of. cbn. unfold marker_line in Hv. by rewrite Hv. }
    unfold speaker_of in Hv.
    split; [constructor; [|done]|].
    + rewrite Hspk. split; intros Hcolon; rewrite Hcolon in Hv.
      * by apply resolve_in_known in Hv as [? _].
      * by injection Hv as <-.
    + intros HU. constructor; [|by apply IH2]. rewrite Hspk.
      destruct (Str.contains ":" (marker_line seg)).
      * by apply resolve_in_known in Hv as [? _].
      * by injection Hv as <-.
Qed.

Lemma speakers_are_known_witness :
  (∀ k v, warm_resolver.(speaker_map) !! k = Some v → v ∈ cast) ∧
  Forall2 (λ seg b,
             (Str.contains ":" (marker_line seg) = true →
              Block.speaker b ∈ cast) ∧
             (Str.contains ":" (marker_line seg) = false →
              Block.speaker b = UNKNOWN_SPEAKER))
    (removelast (segments (accepted "" scenario_A_closed))) [block_A] ∧
  (UNKNOWN_SPEAKER ∈ cast → Forall (λ b, Block.speaker b ∈ cast) [block_A]).
Proof.
  apply (proj2 (proj2 (speakers_are_known cast)) scenario_A_closed [block_A]
           (speaker_map warm_resolver)).
  vm_compute. reflexivity.
Defined.

(** ** The duplicate filter *)

(** C5: the filter starts from the empty line; a cue whose normalized line
    equals the last accepted line leaves every loop variable as it was, so
    a run with the cue and a run without it end alike; a cue whose line
    differs becomes the last accepted line and adds its contribution to the
    duration, which a marker first resets. *)
Theorem duplicate_cue_discarded (ni : bool) (ks : list string)
    (c : Caption.t) (σ : State) :
  last_line (initial_state ks) = "" ∧
  (line_of c = last_line σ →
   loop_body ni ks c σ = Ok σ ∧
   ∀ (pre post : list Caption.t) (σ0 : State),
     run_loop ni ks pre σ0 = Ok σ →
     run_loop ni ks (pre ++ c :: post) σ0 = run_loop ni ks (pre ++ post) σ0 ∧
     (σ0 = initial_state ks →
      get_speech_blocks (pre ++ c :: post) ni ks
      = get_speech_blocks (pre ++ post) ni ks)) ∧
  (line_of c ≠ last_line σ →
   ∀ σ', loop_body ni ks c σ = Ok σ' →
     last_line σ' = line_of c ∧
     timed c ∧
     duration σ'
     = Float.add (if is_marker c then Float.zero else duration σ)
         (contribution c)).
Proof.
  split; [done|]. split.
  - intros Hdup. split; [by apply loop_body_duplicate|].
    intros pre post σ0 Hpre.
    assert (run_loop ni ks (pre ++ c :: post) σ0
            = run_loop ni ks (pre ++ post) σ0) as Hrun.
    { rewrite !run_loop_app, Hpre. cbn.
      by rewrite loop_body_duplicate. }
    split; [done|]. intros ->. unfold get_speech_blocks. by rewrite Hrun.
  - intros Hnew σ' Hbody.
    apply loop_body_accepted in Hbody as [Hc Hbody]; [|done].
    destruct (is_marker c).
    + by destruct Hbody as (spk & r' & _ & ->).
    + by subst σ'.
Qed.

Lemma duplicate_cue_discarded_witness :
  (loop_body false cast blank_cue (initial_state cast)
   = Ok (initial_state cast) ∧
   ∀ (pre post : list Caption.t) (σ0 : State),
     run_loop false cast pre σ0 = Ok (initial_state cast) →
     run_loop false cast (pre ++ blank_cue :: post) σ0
     = run_loop false cast (pre ++ post) σ0 ∧
     (σ0 = initial_state cast →
      get_speech_blocks (pre ++ blank_cue :: post) false cast
      = get_speech_blocks (pre ++ post) false cast)) ∧
  (∀ σ', loop_body false cast next_turn (initial_state cast) = Ok σ' →
     last_line σ' = line_of next_turn ∧
     timed next_turn ∧
     duration σ'
     = Float.add (if is_marker next_turn then Float.zero
                  else duration (initial_state cast))
         (contribution next_turn)).
Proof.
  split.
  - apply (duplicate_cue_discarded false cast blank_cue (initial_state cast)).
    vm_compute. reflexivity.
  - apply (duplicate_cue_discarded false cast next_turn (initial_state cast)).
    vm_compute. discriminate.
Defined.

(** ** Cues before the first marker *)

Lemma run_loop_marker_free (ni : bool) (ks : list string)
    (pre : list Caption.t) (σ σ' : State) :
  marker_free pre →
  Str.startswith ">>" (last_line σ) = false →
  run_loop ni ks pre σ = Ok σ' →
  resolver σ' = resolver σ ∧ blocks σ' = blocks σ ∧
  start_time σ' = start_time σ ∧ speaker σ' = speaker σ ∧
  Str.startswith ">>" (last_line σ') = false.
Proof.
  unfold marker_free. revert σ.
  induction pre as [|c pre IH]; intros σ Hfree Hlast; simpl.
  - by intros [= <-].
  - simpl in Hfree. apply andb_true_iff in Hfree as [Hc Hfree].
    apply negb_true_iff in Hc.
    destruct (loop_body ni ks c σ) as [σ1|e] eqn:Hbody; [|done]. cbn.
    intros Hrun.
    destruct (decide (line_of c = last_line σ)) as [Hdup|Hnew].
    { rewrite loop_body_duplicate in Hbody by done. injection Hbody as <-.
      by apply IH. }
    apply loop_body_accepted in Hbody as [_ Hbody]; [|done].
    rewrite Hc in Hbody. subst σ1.
    apply IH in Hrun; [|done|exact Hc]. exact Hrun.
Qed.

Lemma loop_body_first_marker (ni : bool) (ks : list string) (c : Caption.t)
    (σ1 σ2 : State) :
  is_marker c = true →
  Str.startswith ">>" (last_line σ1) = false →
  Str.startswith ">>" (last_line σ2) = false →
  resolver σ1 = resolver σ2 → blocks σ1 = blocks σ2 →
  start_time σ1 = None → start_time σ2 = None →
  loop_body ni ks c σ1 = loop_body ni ks c σ2.
Proof.
  intros Hc H1 H2 Hr Hb Hs1 Hs2.
  assert (line_of c ≠ last_line σ1) as Hn1.
  { intros E. unfold is_marker in Hc. rewrite E in Hc. congruence. }
  assert (line_of c ≠ last_line σ2) as Hn2.
  { intros E. unfold is_marker in Hc. rewrite E in Hc. congruence. }
  unfold loop_body. fold (line_of c).
  rewrite !bool_decide_eq_false_2 by done.
  unfold is_marker in Hc. rewrite Hc.
  unfold marker_branch, record_previous. cbn. by rewrite Hr, Hb, Hs1, Hs2.
Qed.

(** C9: cues that come before the first marker leave no trace. A stream
    without any marker yields no block and an empty transcript; and when a
    marker-free prefix is followed by a marker cue, the run returns what it
    returns without the prefix: the same blocks, with the same speech and
    the same durations, the same dictionary, hence the same transcript. *)
Theorem leading_cues_leave_no_trace (ni : bool) (ks : list string)
    (pre : list Caption.t) :
  marker_free pre →
  (∀ bs m, get_speech_blocks pre ni ks = Ok (bs, m) →
           bs = [] ∧ get_transcript bs = "") ∧
  (∀ first rest bs m,
     is_marker first = true →
     get_speech_blocks (pre ++ first :: rest) ni ks = Ok (bs, m) →
     get_speech_blocks (first :: rest) ni ks = Ok (bs, m) ∧
     get_transcript bs
     = Str.join (String Str.LF "")
         (Str.join " " <$>
            (fmap line_of <$> removelast (segments (accepted "" (first :: rest)))))).
Proof.
  intros Hfree.
  assert (∀ σ, run_loop ni ks pre (initial_state ks) = Ok σ →
            resolver σ = resolver (initial_state ks) ∧ blocks σ = [] ∧
            start_time σ = None ∧ speaker σ = UNKNOWN_SPEAKER ∧
            Str.startswith ">>" (last_line σ) = false) as Hpre.
  { intros σ Hrun. by apply run_loop_marker_free in Hrun. }
  split.
  - intros bs m. unfold get_speech_blocks.
    destruct (run_loop ni ks pre (initial_state ks)) as [σ|e] eqn:Hrun;
      [|done].
    cbn. intros [= <- <-]. destruct (Hpre σ eq_refl) as (_ & -> & _). done.
  - intros first rest bs m Hfirst Hrun.
    assert (get_speech_blocks (first :: rest) ni ks = Ok (bs, m)) as Hsame.
    { revert Hrun. unfold get_speech_blocks. rewrite run_loop_app.
      destruct (run_loop ni ks pre (initial_state ks)) as [σ|e] eqn:Hp;
        [|done].
      destruct (Hpre σ eq_refl) as (Hr & Hb & Hs & _ & Hl).
      cbn [mbind result_bind run_loop].
      by rewrite (loop_body_first_marker ni ks first σ (initial_state ks)). }
    split; [done|].
    apply get_speech_blocks_spec in Hsame as (-> & _).
    unfold get_transcript. f_equal.
    rewrite <- !list_fmap_compose. by apply list_fmap_ext.
Qed.

Lemma leading_cues_leave_no_trace_witness :
  (∀ bs m, get_speech_blocks leading_cues false cast = Ok (bs, m) →
           bs = [] ∧ get_transcript bs = "") ∧
  (∀ first rest bs m,
     is_marker first = true →
     get_speech_blocks (leading_cues ++ first :: rest) false cast
     = Ok (bs, m) →
     get_speech_blocks (first :: rest) false cast = Ok (bs, m) ∧
     get_transcript bs
     = Str.join (String Str.LF "")
         (Str.join " " <$>
            (fmap line_of <$> removelast (segments (accepted "" (first :: rest)))))).
Proof.
  apply (leading_cues_leave_no_trace false cast leading_cues).
  vm_compute. reflexivity.
Defined.

(** ** The end of the stream *)

Lemma run_inv (ni : bool) (ks : list string) (captions : list Caption.t)
    (σ : State) :
  run_loop ni ks captions (initial_state ks) = Ok σ →
  loop_inv ni ks captions σ.
Proof.
  intros Hrun.
  by apply (run_loop_inv ni ks captions [] _ _ (initial_state_inv ni ks)).
Qed.

(** C2: at the end of the stream the function returns the blocks appended
    so far, which are the blocks of the segments of the accepted cues
    without the last segment. The loop variables hold no block exactly when
    no marker was accepted; otherwise they hold the block of the last
    segment, which is one more than the blocks returned, and which only a
    further accepted marker line would append. *)
Theorem trailing_block_not_appended (captions : list Caption.t) (ni : bool)
    (ks : list string) (σ : State) :
  run_loop ni ks captions (initial_state ks) = Ok σ →
  get_speech_blocks captions ni ks = Ok (blocks σ, speaker_map (resolver σ)) ∧
  blocks σ
  = block_of ni ks <$> removelast (segments (accepted "" captions)) ∧
  (start_time σ = None ↔ segments (accepted "" captions) = []) ∧
  (∀ seg, last (segments (accepted "" captions)) = Some seg →
     active_block σ = block_of ni ks seg ∧
     length (segments (accepted "" captions)) = S (length (blocks σ))) ∧
  (∀ c σ2,
     is_Some (start_time σ) →
     is_marker c = true → line_of c ≠ last_line σ →
     loop_body ni ks c σ = Ok σ2 →
     blocks σ2 = blocks σ ++ [active_block σ]).
Proof.
  intros Hrun.
  split; [by unfold get_speech_blocks; rewrite Hrun|].
  apply run_inv in Hrun as (_ & _ & _ & _ & Hseg). cbn in Hseg.
  destruct (last (segments (accepted "" captions))) as [seg|] eqn:Hl.
  - destruct Hseg as (Hb & Ha & Hs).
    pose proof Hl as [segs Hsegs]%last_Some.
    split; [done|]. split; [|split].
    + split.
      * intros E. rewrite E in Hs. by destruct Hs.
      * intros E. by rewrite E in Hl.
    + intros seg' [= <-]. split; [done|].
      rewrite Hb, Hsegs, removelast_last, length_fmap, length_app. simpl. lia.
    + intros c σ2 _ Hc Hnew Hbody.
      apply loop_body_accepted in Hbody as [_ Hbody]; [|done].
      rewrite Hc in Hbody. destruct Hbody as (spk & r' & _ & ->). cbn.
      unfold record_previous. by destruct Hs as [t ->].
  - destruct Hseg as (Hb & Hs & _). apply last_None in Hl.
    split; [by rewrite Hb, Hl|]. split; [done|]. split; [done|].
    intros c σ2 Hsome. rewrite Hs in Hsome. by destruct Hsome.
Qed.

Lemma trailing_block_not_appended_witness :
  ∃ σ,
    get_speech_blocks scenario_A false cast
    = Ok (blocks σ, speaker_map (resolver σ)) ∧
    blocks σ
    = block_of false cast <$> removelast (segments (accepted "" scenario_A)) ∧
    (start_time σ = None ↔ segments (accepted "" scenario_A) = []) ∧
    (∀ seg, last (segments (accepted "" scenario_A)) = Some seg →
       active_block σ = block_of false cast seg ∧
       length (segments (accepted "" scenario_A)) = S (length (blocks σ))) ∧
    (∀ c σ2,
       is_Some (start_time σ) →
       is_marker c = true → line_of c ≠ last_line σ →
       loop_body false cast c σ = Ok σ2 →
       blocks σ2 = blocks σ ++ [active_block σ]).
Proof.
  eexists.
  apply (trailing_block_not_appended scenario_A false cast).
  vm_compute. reflexivity.
Defined.

(** C1 fails on the code, for the reason C2 gives: on the two cues of
    scenario A the function returns no block. The block the scenario
    expects is left in the loop variables when the stream ends, and is
    returned only when a further speaker turn follows. *)
Theorem scenario_A_returns_no_block :
  get_speech_blocks scenario_A false ["smith"; UNKNOWN_SPEAKER]
  = Ok ([], seed_map ["smith"; UNKNOWN_SPEAKER]) ∧
  (∃ σ, run_loop false ["smith"; UNKNOWN_SPEAKER] scenario_A
          (initial_state ["smith"; UNKNOWN_SPEAKER]) = Ok σ ∧
        blocks σ = [] ∧ active_block σ = block_A) ∧
  (∃ m, get_speech_blocks scenario_A_closed false ["smith"; UNKNOWN_SPEAKER]
        = Ok ([block_A], m)).
Proof.
  split; [by vm_compute|]. split.
  - eexists. split; [vm_compute; reflexivity|]. by vm_compute.
  - eexists. vm_compute. reflexivity.
Qed.

(** ** Durations *)

Lemma foldl_add_shift {A : Type} (f : A → Z) (l : list A) (a : Z) :
  foldl (λ acc x, acc + f x) a l = a + foldl (λ acc x, acc + f x) 0 l.
Proof.
  revert a. induction l as [|x l IH]; intros a; simpl; [lia|].
  rewrite (IH (a + f x)), (IH (0 + f x)). lia.
Qed.

Lemma total_microseconds_app (l1 l2 : list Caption.t) :
  total_microseconds (l1 ++ l2)
  = total_microseconds l1 + total_microseconds l2.
Proof.
  unfold total_microseconds. rewrite foldl_app. apply foldl_add_shift.
Qed.

(** The accepted cues are the unattributed ones followed by the segments. *)
Lemma segments_partition (cs : list Caption.t) :
  cs = unattributed cs ++ concat (segments cs).
Proof.
  induction cs as [|c cs IH]; [done|].
  unfold unattributed in *. simpl.
  destruct (is_marker c); simpl; unfold unattributed; by rewrite <- IH.
Qed.

Lemma segments_partition_last (cs : list Caption.t) :
  cs = unattributed cs ++ concat (removelast (segments cs))
         ++ default [] (last (segments cs)).
Proof.
  rewrite (segments_partition cs) at 1. f_equal.
  destruct (last (segments cs)) as [seg|] eqn:Hl.
  - apply last_Some in Hl as [segs ->].
    rewrite removelast_last, concat_app. simpl. by rewrite app_nil_r.
  - apply last_None in Hl. by rewrite Hl.
Qed.

(** The contribution of a cue is its exact length, divided by 10^6 and
    rounded. *)
Lemma timed_microseconds (c : Caption.t) :
  timed c → contribution c = total_seconds (microseconds c).
Proof.
  unfold timed, contribution, microseconds, timedelta, calc_duration.
  destruct (time_fromisoformat (Caption.start c)) as [ts|]; [|done].
  destruct (time_fromisoformat (Caption.end_ c)) as [te|]; [|done].
  cbn. by destruct (datetime_sub te ts).
Qed.

(** C6, as the specification states it, fails, because durations are floats.
    On [rounded_turns] the two blocks returned last 0.30000000000000004
    and 0.3 seconds and add up to 0.6000000000000001, while the
    contributions of all accepted cues, less those before the first marker
    and less those of the last turn, come to 0.6. The first block's
    duration is not the 0.3 that its two cues last together either. *)
Lemma block_durations_not_conserved :
  get_speech_blocks rounded_turns false cast
  = Ok (rounded_blocks, seed_map cast) ∧
  accepted "" rounded_turns = rounded_turns ∧
  sum_durations rounded_blocks = f_0_6000000000000001 ∧
  Float.sub
    (Float.sub (total_contribution (accepted "" rounded_turns))
       (total_contribution (unattributed (accepted "" rounded_turns))))
    (total_contribution
       (default [] (last (segments (accepted "" rounded_turns)))))
  = f_0_6 ∧
  sum_durations rounded_blocks
  ≠ Float.sub
      (Float.sub (total_contribution (accepted "" rounded_turns))
         (total_contribution (unattributed (accepted "" rounded_turns))))
      (total_contribution
         (default [] (last (segments (accepted "" rounded_turns))))) ∧
  Block.duration <$> head rounded_blocks = Some f_0_30000000000000004 ∧
  total_seconds (total_microseconds (take 2 rounded_turns))
  = total_seconds 300000 ∧
  f_0_30000000000000004 ≠ total_seconds 300000.
Proof.
  split; [by vm_compute|]. split; [by vm_compute|].
  split; [by vm_compute|]. split; [by vm_compute|].
  split; [by vm_compute|]. split; [done|]. split; by vm_compute.
Qed.

(** C6, amended: in a run that returns, every accepted cue has a
    contribution, which is its exact length in microseconds divided by
    10^6 and rounded; the duration of each returned block is the sum of the
    contributions of the cues of its segment, added in the order of the
    cues from 0 and rounded at each addition; the accepted cues are the
    ones before the first marker, then the cues of the returned blocks,
    then the cues of the last segment, which is not returned, so that in
    exact microseconds the cues of the returned blocks last what all
    accepted cues last less the cues before the first marker and less the
    last segment. The duration is computed from the cues and not from the
    block's start and end: the block of [paused_turn] lasts 2 seconds
    between times 6 seconds apart. *)
Theorem block_duration_is_float_sum (captions : list Caption.t) (ni : bool)
    (ks : list string) (bs : list Block.t) (m : gmap string string) :
  get_speech_blocks captions ni ks = Ok (bs, m) →
  Forall timed (accepted "" captions) ∧
  Forall (λ c, contribution c = total_seconds (microseconds c))
    (accepted "" captions) ∧
  Forall2 (λ seg b, Block.duration b = total_contribution seg)
    (removelast (segments (accepted "" captions))) bs ∧
  accepted "" captions
  = unattributed (accepted "" captions)
    ++ concat (removelast (segments (accepted "" captions)))
    ++ default [] (last (segments (accepted "" captions))) ∧
  total_microseconds (concat (removelast (segments (accepted "" captions))))
  = total_microseconds (accepted "" captions)
    - total_microseconds (unattributed (accepted "" captions))
    - total_microseconds
        (default [] (last (segments (accepted "" captions)))) ∧
  (get_speech_blocks paused_turn false cast
   = Ok ([paused_block], seed_map cast) ∧
   Block.duration paused_block = Float.of_int 2 ∧
   span paused_block = Ok (Float.of_int 6)).
Proof.
  intros H. apply get_speech_blocks_spec in H as (-> & Htimed & _).
  split; [done|]. split; [|split; [|split; [|split; [|by vm_compute]]]].
  - eapply Forall_impl; [exact Htimed|]. apply timed_microseconds.
  - apply Forall2_fmap_r, Forall_Forall2_diag, Forall_true. done.
  - apply segments_partition_last.
  - rewrite (segments_partition_last (accepted "" captions)) at 2.
    rewrite !total_microseconds_app. lia.
Qed.

Lemma block_duration_is_float_sum_witness :
  Forall timed (accepted "" rounded_turns) ∧
  Forall (λ c, contribution c = total_seconds (microseconds c))
    (accepted "" rounded_turns) ∧
  Forall2 (λ seg b, Block.duration b = total_contribution seg)
    (removelast (segments (accepted "" rounded_turns))) rounded_blocks ∧
  accepted "" rounded_turns
  = unattributed (accepted "" rounded_turns)
    ++ concat (removelast (segments (accepted "" rounded_turns)))
    ++ default [] (last (segments (accepted "" rounded_turns))) ∧
  total_microseconds
    (concat (removelast (segments (accepted "" rounded_turns))))
  = total_microseconds (accepted "" rounded_turns)
    - total_microseconds (unattributed (accepted "" rounded_turns))
    - total_microseconds
        (default [] (last (segments (accepted "" rounded_turns)))) ∧
  (get_speech_blocks paused_turn false cast
   = Ok ([paused_block], seed_map cast) ∧
   Block.duration paused_block = Float.of_int 2 ∧
   span paused_block = Ok (Float.of_int 6)).
Proof.
  apply (block_duration_is_float_sum rounded_turns false cast rounded_blocks
           (seed_map cast)).
  vm_compute. reflexivity.
Defined.

(** ** Header repair *)

Lemma skip_add (a b : nat) (s : string) :
  Str.skip (a + b) s = Str.skip b (Str.skip a s).
Proof.
  revert s. induction a as [|a IH]; intros s; [done|].
  destruct s as [|c s]; simpl; [by destruct b | apply IH].
Qed.

Lemma length_skip (n : nat) (s : string) :
  String.length (Str.skip n s) = (String.length s - n)%nat.
Proof.
  revert s. induction n as [|n IH]; intros s; simpl; [lia|].
  destruct s as [|c s]; simpl; [done | apply IH].
Qed.

Lemma first_line_nonempty (s : string) :
  s ≠ "" → (0 < String.length (TextIO.first_line s))%nat.
Proof.
  destruct s as [|c s]; [done|]. intros _. simpl.
  destruct (bool_decide (c = Str.LF)); simpl; lia.
Qed.

Lemma first_line_length_le (s : string) :
  (String.length (TextIO.first_line s) ≤ String.length s)%nat.
Proof.
  induction s as [|c s IH]; simpl; [lia|].
  destruct (bool_decide (c = Str.LF)); simpl; lia.
Qed.

Lemma after_line_feeds_first_line (s : string) :
  after_line_feeds s
  = line_starts (Str.skip (String.length (TextIO.first_line s)) s).
Proof.
  induction s as [|c s IH]; [done|]. simpl.
  destruct (bool_decide (c = Str.LF)); [done|]. simpl. exact IH.
Qed.

Lemma re_match_first_line (pattern : list (ascii → bool)) (s : string) :
  Forall (λ p, p Str.LF = false) pattern →
  re_match pattern (TextIO.first_line s) = re_match pattern s.
Proof.
  intros Hpat. revert s.
  induction Hpat as [|p pattern Hp _ IH]; intros s; [by destruct s|].
  destruct s as [|c s]; [done|]. simpl.
  destruct (bool_decide_reflect (c = Str.LF)) as [->|_]; simpl.
  - by rewrite Hp.
  - by rewrite IH.
Qed.

Lemma timestamp_pattern_no_LF :
  Forall (λ p, p Str.LF = false) timestamp_pattern.
Proof. repeat constructor. Qed.

(** The loop ends within the iterations given, at the first line that
    begins with a timestamp or at the end of the text. *)
Lemma find_timestamp_line_spec (fuel : nat) (fp : TextIO.t) :
  (String.length (Str.skip (TextIO.pos fp) (TextIO.contents fp)) < fuel)%nat →
  ∃ r, find_timestamp_line fuel fp (TextIO.pos fp) = Some r ∧
       match from_first_timestamp
               (Str.skip (TextIO.pos fp) (TextIO.contents fp)) with
       | None => r = Raise (Exception "No timestamp-like lines found!")
       | Some rest =>
           ∃ file_pos fp', r = Ok (file_pos, fp') ∧
             TextIO.contents fp' = TextIO.contents fp ∧
             Str.skip file_pos (TextIO.contents fp) = rest
       end.
Proof.
  revert fp. induction fuel as [|fuel IH]; intros [contents pos] Hfuel;
    [lia|].
  cbn [TextIO.pos TextIO.contents] in *.
  set (rest := Str.skip pos contents) in *.
  cbn [find_timestamp_line TextIO.readline TextIO.pos TextIO.contents].
  fold rest. unfold from_first_timestamp.
  destruct (decide (rest = "")) as [Hempty|Hne].
  { rewrite Hempty. cbn. by eexists. }
  assert (TextIO.first_line rest ≠ "") as Hline.
  { intros E. apply first_line_nonempty in Hne. rewrite E in Hne.
    simpl in Hne. lia. }
  rewrite (bool_decide_eq_false_2 _ Hline).
  rewrite (re_match_first_line _ _ timestamp_pattern_no_LF).
  unfold line_starts, nonempty. rewrite (bool_decide_eq_false_2 _ Hne).
  cbn [app find].
  destruct (re_match timestamp_pattern rest) eqn:Hmatch.
  - eexists. split; [done|]. by eexists _, _.
  - rewrite after_line_feeds_first_line.
    specialize (IH (TextIO.mk contents
                      (pos + String.length (TextIO.first_line rest)))).
    cbn [TextIO.pos TextIO.contents TextIO.tell] in *.
    rewrite skip_add in IH. fold rest in IH.
    apply IH. rewrite length_skip.
    apply first_line_nonempty in Hne.
    pose proof (first_line_length_le rest). lia.
Qed.

(** C8: on a freshly opened text, [preprocess] ends, and it returns the
    text from the first line that begins with a timestamp, after the
    header of a WebVTT file, or raises when no line begins with one; it
    raises in that case only. *)
Theorem preprocess_spec (contents : string) :
  preprocess (TextIO.open contents)
  = Some (match from_first_timestamp contents with
          | Some rest => Ok (WEBVTT_header +:+ rest)
          | None => Raise (Exception "No timestamp-like lines found!")
          end) ∧
  ((∃ e, preprocess (TextIO.open contents) = Some (Raise e)) ↔
   Forall (λ line, re_match timestamp_pattern line = false)
     (line_starts contents)).
Proof.
  assert (preprocess (TextIO.open contents)
          = Some (match from_first_timestamp contents with
                  | Some rest => Ok (WEBVTT_header +:+ rest)
                  | None => Raise (Exception "No timestamp-like lines found!")
                  end)) as Heq.
  { unfold preprocess, preprocess_fuel.
    destruct (find_timestamp_line_spec
                (S (String.length contents)) (TextIO.open contents))
      as (r & Hfind & Hr).
    { cbn. lia. }
    unfold TextIO.open in *.
    cbn [TextIO.pos TextIO.contents Str.skip] in Hfind, Hr |- *.
    rewrite Hfind. cbn [mbind option_bind].
    destruct (from_first_timestamp contents) as [rest|].
    - destruct Hr as (file_pos & fp' & -> & Hc & Hrest). cbn.
      by rewrite Hc, Hrest.
    - by rewrite Hr. }
  split; [done|]. rewrite Heq. unfold from_first_timestamp. split.
  - intros [e He].
    destruct (find _ _) as [rest|] eqn:Hfind; [done|].
    apply List.Forall_forall. intros line Hin.
    by apply (find_none _ _ Hfind).
  - intros Hall.
    destruct (find _ _) as [rest|] eqn:Hfind; [|by eexists].
    apply find_some in Hfind as [Hin Hm].
    rewrite List.Forall_forall in Hall. apply Hall in Hin. congruence.
Qed.

Lemma preprocess_spec_examples :
  preprocess (TextIO.open vtt_file) = Some (Ok (WEBVTT_header +:+ vtt_cues)) ∧
  preprocess (TextIO.open "WEBVTT")
  = Some (Raise (Exception "No timestamp-like lines found!")).
Proof. split; by vm_compute. Qed.

(** ** Sanity checks of the embedding on the scenarios of the specification *)

Example levenshtein_smth :
  levenshtein_distance "smth" "smith" = 1%nat ∧
  levenshtein_distance "smth" "jones" = 5%nat ∧
  levenshtein_distance "kitten" "sitting" = 3%nat.
Proof. by vm_compute. Qed.

Example scenario_C :
  infer_speaker false cast "smth" fresh_resolver = Ok ("smith", warm_resolver).
Proof. by vm_compute. Qed.

Example scenario_B :
  get_speech_blocks (scenario_A ++ [repeated_cue; next_turn]) false cast
  = get_speech_blocks scenario_A_closed false cast.
Proof. by vm_compute. Qed.

Example normalize_strips :
  normalize (String Str.CR (String Str.LF " >> a b ") +:+ String Str.NUL "")
  = ">> a b".
Proof. by vm_compute. Qed.

Example raw_label_of_line : raw_label ">> Smith : hello" = "smith".
Proof. by vm_compute. Qed.

(** Durations as Python computes them: 2.0 and 1.5 seconds, a negative
    duration for a cue that ends before it starts, 179999.0 seconds
    between two aware times, and the three ways to fail. *)
Example calc_duration_examples :
  calc_duration "00:00:00.000" "00:00:02.000" = Ok (Float.of_int 2) ∧
  calc_duration "00:00:01" "00:00:02.500000"
  = Ok (Float.div (Float.of_int 3) (Float.of_int 2)) ∧
  calc_duration "00:00:05.000" "00:00:03.500"
  = Ok (Float.div (Float.of_int (-3)) (Float.of_int 2)) ∧
  calc_duration "00:00:00.000+14:00" "23:59:59.000-12:00"
  = Ok (Float.of_int 179999) ∧
  calc_duration "00:00:00.000" "00:00:01.000+00:00" = Raise TypeError ∧
  calc_duration "24:00:00.000" "00:00:01.000" = Raise ValueError ∧
  calc_duration "00:00:00.000" "0:00:01.000" = Raise ValueError.
Proof. repeat split; by vm_compute. Qed.

(** [0.1 + 0.2] is not [0.3]. *)
Example float_rounding :
  Float.add (total_seconds 100000) (total_seconds 200000)
  = f_0_30000000000000004 ∧
  total_seconds 300000 = S754_finite false 5404319552844595 (-54) ∧
  Float.add Float.zero (total_seconds 100000) = total_seconds 100000.
Proof. repeat split; by vm_compute. Qed.

(** * Further properties of the code *)

#[local] Set Warnings "-clear-no-such-hyp".

(** ** The shape of the segments *)

Lemma segments_shape (cs : list Caption.t) :
  Forall (λ seg, ∃ m tl, seg = m :: tl ∧ is_marker m = true ∧
                         Forall (λ c, is_marker c = false) tl)
    (segments cs).
Proof.
  assert (∀ l, Forall (λ c, is_marker c = false) (unattributed l)) as Hun.
  { unfold unattributed. induction l as [|x l IH]; simpl; [constructor|].
    destruct (is_marker x) eqn:E; simpl; [constructor|].
    by constructor. }
  induction cs as [|c cs IH]; simpl; [constructor|].
  destruct (is_marker c) eqn:Hc; [|done].
  constructor; [|done]. by exists c, (unattributed cs).
Qed.

Lemma Forall_removelast {A : Type} (P : A → Prop) (l : list A) :
  Forall P l → Forall P (removelast l).
Proof.
  destruct (last l) as [x|] eqn:Hl.
  - apply last_Some in Hl as [l' ->]. rewrite removelast_last.
    by intros [? _]%Forall_app.
  - apply last_None in Hl. by subst.
Qed.

(** ** [get_closest_match] *)

Lemma pair_le_antisym (p q : nat * string) :
  pair_le p q → pair_le q p → p = q.
Proof.
  destruct p as [d s], q as [d' s']. unfold pair_le. simpl.
  intros [H1|[H1 H1']] [H2|[H2 H2']]; try lia.
  f_equal; [done|]. by apply (anti_symm String.le).
Qed.

(** X3: the answer depends on which candidates are known, not on their
    order or on repetitions in the list: two lists with the same members
    give the same answer, and the lookup raises on the empty list only. *)
Theorem get_closest_match_same_members (query : string)
    (knowns knowns' : list string) :
  (∀ c, c ∈ knowns ↔ c ∈ knowns') →
  get_closest_match query knowns = get_closest_match query knowns' ∧
  (get_closest_match query knowns = Raise ValueError ↔ knowns = []).
Proof.
  intros Hsame.
  assert (∀ l, get_closest_match query l = Raise ValueError ↔ l = [])
    as Hraise.
  { intros [|k l]; [done|]. split; [|done].
    destruct (get_closest_match_total query (k :: l)) as [b ->]; done. }
  split; [|apply Hraise].
  destruct knowns as [|k knowns].
  - destruct knowns' as [|k' knowns']; [done|].
    exfalso. apply (not_elem_of_nil k'), Hsame. by left.
  - destruct knowns' as [|k' knowns'].
    { exfalso. apply (not_elem_of_nil k), Hsame. by left. }
    destruct (get_closest_match_total query (k :: knowns)) as [b Hb];
      [done|].
    destruct (get_closest_match_total query (k' :: knowns')) as [b' Hb'];
      [done|].
    rewrite Hb, Hb'. f_equal.
    apply get_closest_match_spec in Hb as [Hin Hle].
    apply get_closest_match_spec in Hb' as [Hin' Hle'].
    apply Hsame in Hin. apply Hsame in Hin'.
    pose proof (pair_le_antisym _ _ (Hle _ Hin') (Hle' _ Hin)) as E.
    by injection E.
Qed.

Lemma get_closest_match_same_members_witness :
  get_closest_match "smth" ["smith"; "jones"]
  = get_closest_match "smth" ["jones"; "smith"; "jones"] ∧
  (get_closest_match "smth" ["smith"; "jones"] = Raise ValueError
   ↔ ["smith"; "jones"] = []).
Proof.
  apply (get_closest_match_same_members "smth" ["smith"; "jones"]
           ["jones"; "smith"; "jones"]).
  intros c. rewrite !elem_of_cons, !elem_of_nil. tauto.
Defined.

Lemma levenshtein_cons (a b : ascii) (s t : string) :
  levenshtein_distance (String a s) (String b t)
  = Nat.min ((if bool_decide (a = b) then 0 else 1)
             + levenshtein_distance s t)%nat
      (Nat.min (S (levenshtein_distance s (String b t)))
               (S (levenshtein_distance (String a s) t))).
Proof. done. Qed.

Lemma levenshtein_zero (s t : string) :
  levenshtein_distance s t = 0%nat ↔ s = t.
Proof.
  revert t. induction s as [|a s IH]; intros t.
  - simpl. destruct t; simpl; split; try done.
  - destruct t as [|b t]; [split; done|].
    rewrite levenshtein_cons. split.
    + intros H.
      assert (((if bool_decide (a = b) then 0 else 1)
               + levenshtein_distance s t)%nat = 0%nat) as H0 by lia.
      case_bool_decide as Hab; [|lia]. subst b.
      f_equal. apply IH. lia.
    + intros [= <- <-]. rewrite bool_decide_eq_true_2 by done.
      rewrite (proj2 (IH s) eq_refl). lia.
Qed.

(** X4: a known speaker is its own nearest neighbor, so the identity
    entries the dictionary starts with agree with the lookup; and on a
    dictionary of a run the memoized resolver answers exactly what the
    lookup would answer, value or exception: the cache changes no
    result. *)
Theorem memoization_is_transparent (ks : list string) (raw : string)
    (r : Resolver) :
  map_inv ks (speaker_map r) →
  (raw ∈ ks → get_closest_match raw ks = Ok raw) ∧
  match infer_speaker false ks raw r with
  | Ok (v, _) => get_closest_match raw ks = Ok v
  | Raise e => get_closest_match raw ks = Raise e
  end.
Proof.
  intros Hinv.
  assert (∀ x, x ∈ ks → get_closest_match x ks = Ok x) as Hself.
  { intros x Hx.
    destruct (get_closest_match_total x ks) as [b Hb].
    { intros ->. by apply not_elem_of_nil in Hx. }
    rewrite Hb. f_equal.
    apply get_closest_match_spec in Hb as [_ Hle].
    specialize (Hle x Hx). rewrite (proj2 (levenshtein_zero x x) eq_refl) in Hle.
    destruct Hle as [Hlt|[H0 _]]; simpl in *; [lia|].
    by apply levenshtein_zero in H0. }
  split; [apply Hself|].
  destruct (infer_speaker false ks raw r) as [[v r']|e] eqn:Hinfer.
  - apply infer_speaker_spec in Hinfer as (Hres & _); [|done].
    unfold resolve in Hres. case_bool_decide as Hin; [|done].
    injection Hres as <-. by apply Hself.
  - unfold infer_speaker in Hinfer.
    destruct (speaker_map r !! raw); [done|].
    destruct (get_closest_match raw ks) as [b|e']; cbn in Hinfer; [done|].
    by injection Hinfer as ->.
Qed.

Lemma memoization_is_transparent_witness :
  ("smith" ∈ cast → get_closest_match "smith" cast = Ok "smith") ∧
  match infer_speaker false cast "smith" warm_resolver with
  | Ok (v, _) => get_closest_match "smith" cast = Ok v
  | Raise e => get_closest_match "smith" cast = Raise e
  end.
Proof.
  apply (memoization_is_transparent cast "smith" warm_resolver).
  split.
  - intros k Hk. unfold cast in Hk.
    rewrite !elem_of_cons, elem_of_nil in Hk.
    destruct Hk as [->|[->|[->|[]]]]; vm_compute; reflexivity.
  - intros k v Hkv. unfold warm_resolver in Hkv. cbn in Hkv.
    destruct (decide (k = "smth")) as [->|Hne].
    + rewrite lookup_insert_eq in Hkv. injection Hkv as <-.
      vm_compute. reflexivity.
    + rewrite lookup_insert_ne in Hkv by done.
      by apply (map_inv_seed cast).
Defined.

(** ** [get_speech_blocks]: when it returns and what it returns *)

Lemma re_digit_digit (c : ascii) :
  re_digit c = true → ∃ d, digit c = Some d ∧ is_sign c = false.
Proof.
  unfold re_digit, digit, is_sign. intros H%bool_decide_eq_true.
  rewrite bool_decide_eq_true_2 by lia. eexists. split; [done|].
  apply bool_decide_eq_false_2. intros [->| ->]; vm_compute in H; lia.
Qed.

Lemma split_at_sign_cons (c : ascii) (s : string) :
  is_sign c = false →
  split_at_sign (String c s)
  = (String c (split_at_sign s).1, (split_at_sign s).2).
Proof. intros H. cbn [split_at_sign]. by rewrite H. Qed.

Lemma parse_digits_cons (n : nat) (acc d : Z) (c : ascii) (s : string) :
  digit c = Some d →
  parse_digits (S n) acc (String c s) = parse_digits n (10 * acc + d) s.
Proof. intros H. cbn [parse_digits]. by rewrite H. Qed.

Lemma parse_digits_O (acc : Z) (s : string) :
  parse_digits 0 acc s = Some (acc, s).
Proof. done. Qed.

Ltac parse_step :=
  repeat first
    [ erewrite parse_digits_cons by eassumption
    | rewrite parse_digits_O
    | progress cbn [mbind option_bind fst snd from_option String.length] ].

(** What [time.fromisoformat] makes of a timestamp [HH:MM:SS.mmm]: a naive
    time when its fields are those of a time of day, [ValueError]
    otherwise. *)
Lemma webvtt_timestamp_parse (s : string) :
  webvtt_timestamp s = true →
  time_fromisoformat s
  = if bool_decide (in_day s)
    then Ok (Time.mk (microseconds_of (field 0 2 s) (field 3 2 s)
                        (field 6 2 s) (field 9 3 s * 1000)) None)
    else Raise ValueError.
Proof.
  unfold webvtt_timestamp. intros [Hlen Hm]%andb_true_iff.
  apply bool_decide_eq_true in Hlen.
  do 12 (destruct s as [|? s]; [done|]). destruct s; [|done]. clear Hlen.
  cbn [re_match timestamp_pattern] in Hm.
  repeat match goal with
         | H : _ && _ = true |- _ =>
             apply andb_true_iff in H as [? ?]
         | H : re_char _ _ = true |- _ =>
             apply bool_decide_eq_true in H; subst
         | H : re_digit _ = true |- _ =>
             apply re_digit_digit in H as (? & ? & ?)
         end.
  unfold time_fromisoformat, in_day, field.
  rewrite !split_at_sign_cons by (assumption || reflexivity).
  cbn [split_at_sign fst snd Str.skip].
  unfold parse_hh_mm_ss_ff, parse_fraction.
  parse_step. rewrite bool_decide_eq_true_2 by done. by parse_step.
Qed.

Lemma calc_duration_raises (a b : string) (e : exn) :
  webvtt_timestamp a = true → webvtt_timestamp b = true →
  calc_duration a b = Raise e → e = ValueError.
Proof.
  intros Ha Hb. unfold calc_duration.
  rewrite (webvtt_timestamp_parse a Ha), (webvtt_timestamp_parse b Hb).
  repeat case_bool_decide; cbn; congruence.
Qed.

(** For the timestamps of a cue that [webvtt] read, [calc_duration]
    returns exactly when both are times of day. *)
Lemma webvtt_cue_timed (c : Caption.t) :
  webvtt_cue c = true →
  timed c ↔ in_day (Caption.start c) ∧ in_day (Caption.end_ c).
Proof.
  unfold webvtt_cue, timed, contribution, calc_duration.
  intros [Ha Hb]%andb_true_iff.
  rewrite (webvtt_timestamp_parse _ Ha), (webvtt_timestamp_parse _ Hb).
  repeat case_bool_decide; cbn; split; try done; by intros [? ?].
Qed.

Lemma marker_speaker_raises (ni : bool) (ks : list string) (line : string)
    (r : Resolver) (e : exn) :
  marker_speaker ni ks line r = Raise e →
  e = ValueError ∧ ni = false ∧ ks = [] ∧ Str.contains ":" line = true.
Proof.
  unfold marker_speaker, infer_speaker.
  destruct (Str.contains ":" line); [|done].
  destruct ni; [done|].
  destruct (speaker_map r !! raw_label line); [done|].
  destruct ks as [|k ks].
  - cbn. by intros [= <-].
  - destruct (get_closest_match_total (raw_label line) (k :: ks)) as [b ->];
      done.
Qed.

Lemma loop_body_raises (ni : bool) (ks : list string) (c : Caption.t)
    (σ : State) (e : exn) :
  webvtt_cue c = true →
  loop_body ni ks c σ = Raise e → e = ValueError.
Proof.
  intros [Ha Hb]%andb_true_iff.
  unfold loop_body. case_bool_decide; [done|].
  destruct (Str.startswith ">>" (normalize (Caption.text c))).
  - unfold marker_branch. cbn [resolver].
    destruct (marker_speaker _ _ _ _) as [[spk r']|e'] eqn:Hspk; cbn.
    + destruct (calc_duration _ _) as [d|e'] eqn:Hd; cbn; [done|].
      intros [= <-]. by apply calc_duration_raises in Hd.
    + intros [= <-]. by apply marker_speaker_raises in Hspk as [? _].
  - cbn. destruct (calc_duration _ _) as [d|e'] eqn:Hd; cbn; [done|].
    intros [= <-]. by apply calc_duration_raises in Hd.
Qed.

Lemma run_loop_raises (ni : bool) (ks : list string) (l : list Caption.t)
    (σ : State) (e : exn) :
  Forall (λ c, webvtt_cue c = true) l →
  run_loop ni ks l σ = Raise e → e = ValueError.
Proof.
  intros Hl. revert σ.
  induction Hl as [|c l Hc Hl IH]; intros σ; simpl; [done|].
  destruct (loop_body ni ks c σ) as [σ1|e1] eqn:Hbody; cbn.
  - apply IH.
  - intros [= <-]. by apply loop_body_raises in Hbody.
Qed.

Lemma loop_body_total (ni : bool) (ks : list string) (c : Caption.t)
    (σ : State) :
  line_of c ≠ last_line σ → timed c →
  ni = true ∨ ks ≠ [] ∨ labelled c = false →
  ∃ σ', loop_body ni ks c σ = Ok σ' ∧ last_line σ' = line_of c.
Proof.
  intros Hnew Htimed Hcond.
  destruct (loop_body ni ks c σ) as [σ'|e] eqn:Hbody.
  - exists σ'. split; [done|].
    apply loop_body_accepted in Hbody as [_ Hbody]; [|done].
    destruct (is_marker c).
    + by destruct Hbody as (spk & r' & _ & ->).
    + by subst σ'.
  - exfalso. revert Hbody. unfold loop_body. fold (line_of c).
    rewrite bool_decide_eq_false_2 by done.
    unfold timed in Htimed. rewrite Htimed.
    unfold labelled, is_marker in Hcond.
    destruct (Str.startswith ">>" (line_of c)) eqn:Hm; [|done].
    unfold marker_branch. cbn [resolver].
    destruct (marker_speaker _ _ _ _) as [[spk r']|e'] eqn:Hspk; [done|].
    apply marker_speaker_raises in Hspk as (_ & -> & -> & Hcolon).
    rewrite Hcolon in Hcond. by destruct Hcond as [?|[?|?]].
Qed.

Lemma run_loop_total (ni : bool) (ks : list string) (l : list Caption.t)
    (σ : State) :
  Forall timed (accepted (last_line σ) l) →
  ni = true ∨ ks ≠ [] ∨
    Forall (λ c, labelled c = false) (accepted (last_line σ) l) →
  ∃ σ', run_loop ni ks l σ = Ok σ'.
Proof.
  revert σ. induction l as [|c l IH]; intros σ Htimed Hcond; simpl.
  - by eexists.
  - simpl in Htimed, Hcond.
    destruct (decide (line_of c = last_line σ)) as [Hdup|Hnew].
    + rewrite bool_decide_eq_true_2 in Htimed, Hcond by done.
      rewrite loop_body_duplicate by done. cbn. by apply IH.
    + rewrite bool_decide_eq_false_2 in Htimed, Hcond by done.
      apply Forall_cons in Htimed as [Hc Htimed].
      destruct (loop_body_total ni ks c σ) as (σ1 & -> & Hlast); [done..| |].
      { destruct Hcond as [?|[?|Hall]]; [by left | by right; left |].
        right; right. by apply Forall_cons in Hall as [? _]. }
      cbn. apply IH; rewrite Hlast; [done|].
      destruct Hcond as [?|[?|Hall]]; [by left | by right; left |].
      right; right. by apply Forall_cons in Hall as [_ ?].
Qed.

Lemma marker_heads_segment (cs : list Caption.t) (c : Caption.t) :
  c ∈ cs → is_marker c = true →
  ∃ seg, seg ∈ segments cs ∧ head seg = Some c.
Proof.
  induction cs as [|x cs IH]; [by intros ?%not_elem_of_nil|].
  intros [->|Hin]%elem_of_cons Hc; simpl.
  - rewrite Hc. eexists. split; [by left | done].
  - destruct (IH Hin Hc) as (seg & Hseg & Hhead).
    exists seg. split; [|done].
    destruct (is_marker x); [by right | done].
Qed.

Lemma accepted_sublist (last : string) (l : list Caption.t) (c : Caption.t) :
  c ∈ accepted last l → c ∈ l.
Proof.
  revert last. induction l as [|x l IH]; intros last; simpl; [done|].
  case_bool_decide.
  - intros Hc. right. by eapply IH.
  - intros [->|Hc]%elem_of_cons; [by left|]. right. by eapply IH.
Qed.

(** X5: on cues whose timestamps have the form [HH:MM:SS.mmm], as the
    [webvtt] reader writes them, the function returns exactly when the
    start and the end of every accepted cue are times of day (hour below
    24, minute and second below 60) and, if names are inferred from an
    empty list of known speakers, no accepted marker line has a colon;
    otherwise it raises, and what it raises is a [ValueError]. *)
Theorem get_speech_blocks_returns_iff (captions : list Caption.t) (ni : bool)
    (ks : list string) :
  Forall (λ c, webvtt_cue c = true) captions →
  ((∃ bs m, get_speech_blocks captions ni ks = Ok (bs, m)) ↔
   Forall (λ c, in_day (Caption.start c) ∧ in_day (Caption.end_ c))
     (accepted "" captions) ∧
   (ni = true ∨ ks ≠ [] ∨
    Forall (λ c, labelled c = false) (accepted "" captions))) ∧
  (∀ e, get_speech_blocks captions ni ks = Raise e → e = ValueError).
Proof.
  intros Hshape.
  assert (Forall timed (accepted "" captions)
          ↔ Forall (λ c, in_day (Caption.start c) ∧ in_day (Caption.end_ c))
              (accepted "" captions)) as Hday.
  { rewrite !Forall_forall. rewrite Forall_forall in Hshape.
    split; intros H c Hc; apply webvtt_cue_timed;
      eauto using accepted_sublist. }
  split; [split|].
  - intros (bs & m & H).
    apply get_speech_blocks_spec in H as (_ & Htimed & Hres & _).
    split; [by apply Hday|].
    destruct ni; [by left|]. destruct ks as [|k ks]; [|by right; left].
    right; right. apply Forall_forall. intros c Hc.
    unfold labelled. destruct (is_marker c) eqn:Hm; [|done]. simpl.
    destruct (marker_heads_segment _ _ Hc Hm) as (seg & Hseg & Hhead).
    rewrite Forall_forall in Hres. destruct (Hres seg Hseg) as [v Hv].
    unfold marker_line, speaker_of in Hv. rewrite Hhead in Hv. simpl in Hv.
    by destruct (Str.contains ":" (line_of c)).
  - intros [Htimed%Hday Hcond].
    destruct (run_loop_total ni ks captions (initial_state ks)) as [σ Hσ];
      [done..|].
    unfold get_speech_blocks. rewrite Hσ. by eexists _, _.
  - intros e. unfold get_speech_blocks.
    destruct (run_loop ni ks captions (initial_state ks)) as [σ|e'] eqn:Hrun;
      [done|].
    cbn. intros [= <-]. by apply run_loop_raises in Hrun.
Qed.

Lemma get_speech_blocks_returns_iff_witness :
  ((∃ bs m, get_speech_blocks scenario_A false cast = Ok (bs, m)) ↔
   Forall (λ c, in_day (Caption.start c) ∧ in_day (Caption.end_ c))
     (accepted "" scenario_A) ∧
   (false = true ∨ cast ≠ [] ∨
    Forall (λ c, labelled c = false) (accepted "" scenario_A))) ∧
  (∀ e, get_speech_blocks scenario_A false cast = Raise e → e = ValueError).
Proof.
  apply (get_speech_blocks_returns_iff scenario_A false cast).
  repeat constructor.
Defined.

Lemma startswith_app (p a b : string) :
  Str.startswith p a = true → Str.startswith p (a +:+ b) = true.
Proof.
  revert a. induction p as [|x p IH]; intros a; [done|].
  destruct a as [|y a]; [done|]. simpl.
  intros [-> Hp]%andb_true_iff. simpl. by apply IH.
Qed.

Lemma startswith_join (p sep x : string) (l : list string) :
  Str.startswith p x = true → Str.startswith p (Str.join sep (x :: l)) = true.
Proof.
  intros Hp. destruct l as [|y l]; [done|].
  change (Str.join sep (x :: y :: l))
    with (x +:+ sep +:+ Str.join sep (y :: l)).
  by apply startswith_app.
Qed.

(** X6: every block returned has its start and end times set, and its
    speech begins with the marker [>>]. *)
Theorem emitted_blocks_well_formed (captions : list Caption.t) (ni : bool)
    (ks : list string) (bs : list Block.t) (m : gmap string string) :
  get_speech_blocks captions ni ks = Ok (bs, m) →
  Forall (λ b, is_Some (Block.start b) ∧ is_Some (Block.end_ b) ∧
               Str.startswith ">>" (Block.speech b) = true) bs.
Proof.
  intros H. apply get_speech_blocks_spec in H as (-> & _).
  apply Forall_fmap.
  pose proof (Forall_removelast _ _ (segments_shape (accepted "" captions)))
    as Hshape.
  rewrite Forall_forall in Hshape |- *.
  intros seg Hin.
  destruct (Hshape seg Hin) as (f & tl & -> & Hf & _).
  destruct (last (f :: tl)) as [l|] eqn:Hl; [|by apply last_None in Hl].
  unfold block_of. cbn. rewrite Hl. cbn.
  split; [by eexists|]. split; [by eexists|].
  by apply (startswith_join ">>" " " (line_of f) (line_of <$> tl)).
Qed.

Lemma emitted_blocks_well_formed_witness :
  Forall (λ b, is_Some (Block.start b) ∧ is_Some (Block.end_ b) ∧
               Str.startswith ">>" (Block.speech b) = true) [paused_block].
Proof.
  apply (emitted_blocks_well_formed paused_turn false cast [paused_block]
           (seed_map cast)).
  vm_compute. reflexivity.
Defined.

(** ** The dictionary returned, and the sums [main] prints *)

Lemma loop_body_new_keys (ni : bool) (ks : list string) (c : Caption.t)
    (σ σ' : State) (k : string) :
  loop_body ni ks c σ = Ok σ' →
  is_Some (speaker_map (resolver σ') !! k) →
  is_Some (speaker_map (resolver σ) !! k) ∨
  (ni = false ∧ labelled c = true ∧ raw_label (line_of c) = k).
Proof.
  intros Hbody Hk.
  destruct (decide (line_of c = last_line σ)) as [Hdup|Hnew].
  { rewrite loop_body_duplicate in Hbody by done. injection Hbody as <-.
    by left. }
  apply loop_body_accepted in Hbody as [_ Hbody]; [|done].
  unfold labelled. destruct (is_marker c); [|subst σ'; by left].
  destruct Hbody as (spk & r' & Hspk & ->). cbn in Hk.
  unfold marker_speaker, infer_speaker in Hspk.
  destruct (Str.contains ":" (line_of c));
    [|injection Hspk as _ <-; by left].
  destruct ni; [injection Hspk as _ <-; by left|].
  destruct (speaker_map (resolver σ) !! raw_label (line_of c)) eqn:Hl;
    [injection Hspk as _ <-; by left|].
  destruct (get_closest_match _ _) as [b|e]; [|done].
  cbn in Hspk. injection Hspk as _ <-. cbn in Hk.
  destruct (decide (raw_label (line_of c) = k)) as [E|E]; [by right|].
  left. by rewrite lookup_insert_ne in Hk.
Qed.

Lemma run_loop_new_keys (ni : bool) (ks : list string) (l : list Caption.t)
    (σ σ' : State) (k : string) :
  run_loop ni ks l σ = Ok σ' →
  is_Some (speaker_map (resolver σ') !! k) →
  is_Some (speaker_map (resolver σ) !! k) ∨
  (ni = false ∧
   ∃ c, c ∈ l ∧ labelled c = true ∧ raw_label (line_of c) = k).
Proof.
  revert σ. induction l as [|c l IH]; intros σ; simpl.
  - intros [= <-]. by left.
  - destruct (loop_body ni ks c σ) as [σ1|e] eqn:Hbody; [|done]. cbn.
    intros Hrun Hk.
    destruct (IH _ Hrun Hk) as [Hk1|(Hni & c' & Hin & Hc')].
    + destruct (loop_body_new_keys _ _ _ _ _ _ Hbody Hk1)
        as [?|(Hni & Hc & Hraw)]; [by left|].
      right. split; [done|]. exists c. split; [by left | done].
    + right. split; [done|]. exists c'. split; [by right | done].
Qed.

(** X7: in the dictionary returned, a known speaker is mapped to itself,
    and any other key is a label read on a marker line of the input, with
    inference enabled, and is mapped to its nearest known speaker, which
    differs from it: the corrections [main] reports, the entries whose key
    and value differ, are exactly the entries of the labels that are not
    known. *)
Theorem returned_dictionary_entries (captions : list Caption.t) (ni : bool)
    (ks : list string) (bs : list Block.t) (m : gmap string string)
    (k v : string) :
  get_speech_blocks captions ni ks = Ok (bs, m) →
  m !! k = Some v →
  (k ≠ v ↔ k ∉ ks) ∧
  (k ∉ ks →
   ni = false ∧ v ∈ ks ∧ get_closest_match k ks = Ok v ∧
   ∃ c, c ∈ captions ∧ labelled c = true ∧ raw_label (line_of c) = k).
Proof.
  intros Hrun Hkv.
  pose proof Hrun as (_ & _ & _ & Hinv)%get_speech_blocks_spec.
  pose proof (map_inv_values _ _ _ _ Hinv Hkv) as Hv.
  destruct Hinv as [Hseed Hval].
  assert (k ≠ v ↔ k ∉ ks) as Hiff.
  { split.
    - intros Hne Hin. apply Hseed in Hin. congruence.
    - intros Hnot ->. done. }
  split; [done|]. intros Hnot.
  apply Hval in Hkv as Hres. unfold resolve in Hres.
  rewrite bool_decide_eq_false_2 in Hres by done.
  unfold get_speech_blocks in Hrun.
  destruct (run_loop ni ks captions (initial_state ks)) as [σ|e] eqn:Hloop;
    [|done].
  cbn in Hrun. injection Hrun as _ <-.
  destruct (run_loop_new_keys _ _ _ _ _ k Hloop) as [Hk0|[Hni Hc]];
    [by eexists| |done].
  exfalso. cbn in Hk0. rewrite seed_map_lookup in Hk0.
  rewrite bool_decide_eq_false_2 in Hk0 by done. by destruct Hk0.
Qed.

Lemma returned_dictionary_entries_witness :
  ("smth" ≠ "smith" ↔ "smth" ∉ cast) ∧
  ("smth" ∉ cast →
   false = false ∧ "smith" ∈ cast ∧ get_closest_match "smth" cast = Ok "smith" ∧
   ∃ c, c ∈ scenario_A_closed ∧ labelled c = true ∧
        raw_label (line_of c) = "smth").
Proof.
  apply (returned_dictionary_entries scenario_A_closed false cast [block_A]
           (speaker_map warm_resolver) "smth" "smith").
  - vm_compute. reflexivity.
  - vm_compute. reflexivity.
Defined.

Lemma sum_durations_snoc (bs : list Block.t) (b : Block.t) :
  sum_durations (bs ++ [b])
  = Float.add (sum_durations bs) (Block.duration b).
Proof. unfold sum_durations. by rewrite foldl_snoc. Qed.

Lemma speaker_times_snoc (bs : list Block.t) (b : Block.t) :
  speaker_times (bs ++ [b])
  = <[Block.speaker b :=
        Float.add (default Float.zero (speaker_times bs !! Block.speaker b))
          (Block.duration b)]>
      (speaker_times bs).
Proof. unfold speaker_times. by rewrite foldl_snoc. Qed.

Lemma blocks_of_absent_speaker (bs : list Block.t) (s : string) :
  s ∉ Block.speaker <$> bs → blocks_of_speaker s bs = [].
Proof.
  unfold blocks_of_speaker. induction bs as [|b bs IH]; [done|].
  cbn [fmap list_fmap]. intros Hnot.
  rewrite filter_cons_False by (intros E; apply Hnot; rewrite E; by left).
  apply IH. intros Hin. apply Hnot. by right.
Qed.

(** X8: the table of speaking times has an entry for a speaker exactly
    when some block is attributed to that speaker, and the entry is the
    sum of the durations of the speaker's blocks, added in the order of
    the blocks from 0. *)
Theorem speaker_times_lookup (bs : list Block.t) (s : string) :
  speaker_times bs !! s
  = if bool_decide (s ∈ Block.speaker <$> bs)
    then Some (sum_durations (blocks_of_speaker s bs))
    else None.
Proof.
  induction bs as [|b bs IH] using rev_ind; [done|].
  rewrite speaker_times_snoc, fmap_app. unfold blocks_of_speaker in *.
  rewrite filter_app. cbn [fmap list_fmap].
  destruct (decide (Block.speaker b = s)) as [Hb|Hb].
  - rewrite Hb, lookup_insert_eq, IH.
    rewrite (bool_decide_eq_true_2 (s ∈ _ ++ [s]))
      by (apply elem_of_app; right; left).
    rewrite filter_cons_True by done. rewrite filter_nil.
    rewrite sum_durations_snoc. f_equal.
    case_bool_decide as Hs; simpl; [done|].
    pose proof (blocks_of_absent_speaker bs s Hs) as Habs.
    unfold blocks_of_speaker in Habs. by rewrite Habs.
  - rewrite lookup_insert_ne, IH by done.
    rewrite filter_cons_False by done. rewrite filter_nil, app_nil_r.
    assert (s ∈ (Block.speaker <$> bs) ++ [Block.speaker b]
            ↔ s ∈ Block.speaker <$> bs) as Hiff.
    { rewrite elem_of_app, list_elem_of_singleton.
      split; [intros [?|?]; [done | congruence] | by left]. }
    by rewrite (bool_decide_ext _ _ Hiff).
Qed.

(** ** [preprocess]: what is kept and what is dropped *)

Lemma preprocess_open (contents : string) :
  preprocess (TextIO.open contents)
  = Some (match from_first_timestamp contents with
          | Some rest => Ok (WEBVTT_header +:+ rest)
          | None => Raise (Exception "No timestamp-like lines found!")
          end).
Proof.
  unfold preprocess, preprocess_fuel.
  destruct (find_timestamp_line_spec
              (S (String.length contents)) (TextIO.open contents))
    as (r & Hfind & Hr).
  { cbn. lia. }
  unfold TextIO.open in *.
  cbn [TextIO.pos TextIO.contents Str.skip] in Hfind, Hr |- *.
  rewrite Hfind. cbn [mbind option_bind].
  destruct (from_first_timestamp contents) as [rest|].
  - destruct Hr as (file_pos & fp' & -> & Hc & Hrest). cbn.
    by rewrite Hc, Hrest.
  - by rewrite Hr.
Qed.

Lemma append_cons (c : ascii) (s t : string) :
  String c s +:+ t = String c (s +:+ t).
Proof. done. Qed.

Lemma line_starts_suffix (s suf : string) :
  In suf (line_starts s) →
  suf ≠ "" ∧ ∃ pre, s = pre +:+ suf ∧ ends_line pre.
Proof.
  assert (∀ t, In suf (nonempty t) → suf = t ∧ suf ≠ "") as Hne.
  { intros t. unfold nonempty. case_bool_decide; [done|].
    intros [<-|[]]. done. }
  assert (∀ t, In suf (after_line_feeds t) →
               suf ≠ "" ∧ ∃ pre, t = pre +:+ suf ∧
                 ∃ p, pre = p +:+ String Str.LF "") as Hafter.
  { induction t as [|c t IH]; [done|]. simpl.
    intros [Hin|Hin]%in_app_or.
    - case_bool_decide as Hc; [|done]. subst c.
      apply Hne in Hin as [-> Hnon]. split; [done|].
      exists (String Str.LF ""). split; [done|]. by exists "".
    - destruct (IH Hin) as (Hnon & pre & -> & p & ->). split; [done|].
      exists (String c (p +:+ String Str.LF "")). split; [done|].
      by exists (String c p). }
  unfold line_starts. intros [Hin|Hin]%in_app_or.
  - apply Hne in Hin as [-> Hnon]. split; [done|].
    exists "". split; [done | by left].
  - destruct (Hafter s Hin) as (Hnon & pre & Hs & Hp). split; [done|].
    exists pre. split; [done | by right].
Qed.

(** X10: what a successful header repair returns is the header followed by
    a part of the input that reaches to its end, begins with a timestamp,
    and begins a line of the input: nothing after the first timestamp line
    is lost or altered, and when the input begins with a timestamp all of
    it is kept. *)
Theorem preprocess_keeps_suffix (contents out : string) :
  preprocess (TextIO.open contents) = Some (Ok out) →
  (∃ pre rest,
     out = WEBVTT_header +:+ rest ∧ contents = pre +:+ rest ∧
     ends_line pre ∧ re_match timestamp_pattern rest = true) ∧
  (re_match timestamp_pattern contents = true →
   out = WEBVTT_header +:+ contents).
Proof.
  rewrite preprocess_open. unfold from_first_timestamp.
  destruct (find _ _) as [rest|] eqn:Hfind; [|done].
  intros [= <-]. split.
  - apply find_some in Hfind as [Hin Hmatch].
    apply line_starts_suffix in Hin as (_ & pre & -> & Hpre).
    by exists pre, rest.
  - intros Hm. revert Hfind. unfold line_starts, nonempty.
    case_bool_decide as He; [by rewrite He in Hm|].
    cbn [app find]. rewrite Hm. by intros [= <-].
Qed.

Lemma preprocess_keeps_suffix_witness :
  (∃ pre rest,
     WEBVTT_header +:+ vtt_cues = WEBVTT_header +:+ rest ∧
     vtt_file = pre +:+ rest ∧
     ends_line pre ∧ re_match timestamp_pattern rest = true) ∧
  (re_match timestamp_pattern vtt_file = true →
   WEBVTT_header +:+ vtt_cues = WEBVTT_header +:+ vtt_file).
Proof.
  apply (preprocess_keeps_suffix vtt_file (WEBVTT_header +:+ vtt_cues)).
  vm_compute. reflexivity.
Defined.

Lemma after_line_feeds_other (c : ascii) (s : string) :
  c ≠ Str.LF → after_line_feeds (String c s) = after_line_feeds s.
Proof. intros Hc. simpl. by rewrite bool_decide_eq_false_2. Qed.

Lemma from_first_timestamp_after_header (rest : string) :
  re_match timestamp_pattern rest = true →
  from_first_timestamp (WEBVTT_header +:+ rest) = Some rest.
Proof.
  intros Hmatch.
  assert (rest ≠ "") as Hne by (by intros ->).
  assert (∀ s, re_match timestamp_pattern (String "W" s) = false) as Hw
    by done.
  unfold from_first_timestamp, line_starts.
  change (WEBVTT_header +:+ rest)
    with (String "W" (String "E" (String "B" (String "V" (String "T"
            (String "T" (String Str.CR (String Str.LF rest)))))))).
  unfold nonempty at 1. rewrite bool_decide_eq_false_2 by done.
  cbn [app find]. rewrite Hw.
  rewrite !after_line_feeds_other by done.
  cbn [after_line_feeds]. rewrite bool_decide_eq_true_2 by done.
  unfold nonempty. rewrite bool_decide_eq_false_2 by done.
  cbn [app find]. by rewrite Hmatch.
Qed.

(** X11: repairing a repaired text changes nothing: the output of a
    successful [preprocess] is accepted by [preprocess] and returned as it
    is. *)
Theorem preprocess_idempotent (contents out : string) :
  preprocess (TextIO.open contents) = Some (Ok out) →
  preprocess (TextIO.open out) = Some (Ok out).
Proof.
  rewrite (preprocess_open contents). unfold from_first_timestamp at 1.
  destruct (find _ (line_starts contents)) as [rest|] eqn:Hfind; [|done].
  intros [= <-].
  apply find_some in Hfind as [_ Hmatch].
  rewrite preprocess_open.
  by rewrite from_first_timestamp_after_header.
Qed.

Lemma preprocess_idempotent_witness :
  preprocess (TextIO.open (WEBVTT_header +:+ vtt_cues))
  = Some (Ok (WEBVTT_header +:+ vtt_cues)).
Proof.
  apply (preprocess_idempotent vtt_file (WEBVTT_header +:+ vtt_cues)).
  vm_compute. reflexivity.
Defined.

(** ** [enumerate_captions.py]: the list of recordings *)

Lemma visit_vods_spec (retrieve : Vod.t → result ()) (vods : list Vod.t)
    (known : gset Z) (trace : list Vod.t) (known' : gset Z)
    (trace' : list Vod.t) :
  visit_vods retrieve vods known trace = Ok (known', trace') →
  ∃ new,
    trace' = trace ++ new ∧
    known' = known ∪ list_to_set (Vod.id <$> new) ∧
    NoDup (Vod.id <$> new) ∧
    (∀ v, v ∈ new → (Vod.id v ∉ known) ∧ v ∈ vods ∧ retrieve v = Ok ()) ∧
    (∀ v, v ∈ vods → Vod.id v ∈ known').
Proof.
  revert known trace. induction vods as [|v vods IH]; intros known trace.
  - simpl. intros [= <- <-]. exists []. rewrite app_nil_r.
    split; [done|]. split; [set_solver|]. split; [constructor|].
    split; by intros ? ?%not_elem_of_nil.
  - simpl. case_bool_decide as Hv.
    + intros H. destruct (IH _ _ H) as (new & -> & -> & Hnd & Hnew & Hall).
      exists new. repeat split; try done.
      * by apply Hnew.
      * right. by apply Hnew.
      * by apply Hnew.
      * intros w [->|Hw]%elem_of_cons; [set_solver | by apply Hall].
    + destruct (retrieve v) as [[]|e] eqn:Hr; [|done]. cbn.
      intros H. destruct (IH _ _ H) as (new & -> & -> & Hnd & Hnew & Hall).
      exists (v :: new). rewrite <- app_assoc.
      split; [done|]. split; [set_solver|]. split.
      { cbn. constructor; [|done].
        intros (w & Hid & Hw)%list_elem_of_fmap.
        apply Hnew in Hw as (Hw & _). set_solver. }
      split.
      * intros w [->|Hw]%elem_of_cons; [by repeat split; [|left|]|].
        destruct (Hnew w Hw) as (Hk & Hin & Hrw).
        split; [set_solver|]. split; [by right | done].
      * intros w [->|Hw]%elem_of_cons; [set_solver | by apply Hall].
Qed.

Lemma fetch_pages_spec (list_vods : nat → result VodPage.t)
    (retrieve : Vod.t → result ()) (fuel page : nat) (known : gset Z)
    (trace : list Vod.t) (known' : gset Z) (trace' : list Vod.t) :
  fetch_pages list_vods retrieve fuel page known trace
  = Some (Ok (known', trace')) →
  ∃ new,
    trace' = trace ++ new ∧
    known' = known ∪ list_to_set (Vod.id <$> new) ∧
    NoDup (Vod.id <$> new) ∧
    (∀ v, v ∈ new → (Vod.id v ∉ known) ∧ retrieve v = Ok ()) ∧
    (∀ body v, list_vods page = Ok body → v ∈ VodPage.vods body →
               Vod.id v ∈ known').
Proof.
  revert page known trace.
  induction fuel as [|fuel IH]; intros page known trace; [done|].
  simpl. destruct (list_vods page) as [body|e] eqn:Hpage; [|done].
  destruct (visit_vods retrieve (VodPage.vods body) known trace)
    as [[known1 trace1]|e] eqn:Hvisit; [|done].
  apply visit_vods_spec in Hvisit as (new1 & -> & -> & Hnd1 & Hnew1 & Hall1).
  case_bool_decide as Hbreak.
  - intros [= <- <-]. exists new1. repeat split; try done.
    + by apply Hnew1.
    + by apply Hnew1.
    + intros body' v [= <-]. apply Hall1.
  - intros H. destruct (IH _ _ _ H) as (new2 & -> & -> & Hnd2 & Hnew2 & _).
    exists (new1 ++ new2). rewrite <- app_assoc.
    split; [done|]. split; [rewrite fmap_app; set_solver|]. split.
    { rewrite fmap_app. apply NoDup_app. split; [done|]. split; [|done].
      intros x Hx1 (w & -> & Hw)%list_elem_of_fmap.
      apply Hnew2 in Hw as [Hw _]. set_solver. }
    split.
    + intros v [Hv|Hv]%elem_of_app.
      * split; by apply Hnew1.
      * destruct (Hnew2 v Hv) as [Hk Hr]. split; [set_solver | done].
    + intros body' v [= <-] Hv. specialize (Hall1 v Hv). set_solver.
Qed.

(** X12: a fetch that returns retrieved the captions of no recording whose
    id was known beforehand, and of no two recordings with the same id;
    the set it returns holds the ids known beforehand and the ids
    retrieved, nothing else, and with them the id of every recording
    listed on the first page. *)
Theorem fetch_retrieves_each_new_vod_once
    (list_vods : nat → result VodPage.t) (retrieve : Vod.t → result ())
    (fuel : nat) (known_vods : list Z) (known' : gset Z)
    (trace : list Vod.t) :
  fetch_new_raw_captions list_vods retrieve fuel known_vods
  = Some (Ok (known', trace)) →
  known' = list_to_set known_vods ∪ list_to_set (Vod.id <$> trace) ∧
  NoDup (Vod.id <$> trace) ∧
  (∀ v, v ∈ trace → (Vod.id v ∉ known_vods) ∧ retrieve v = Ok ()) ∧
  (∀ body v, list_vods 0%nat = Ok body → v ∈ VodPage.vods body →
             Vod.id v ∈ known').
Proof.
  unfold fetch_new_raw_captions. intros H.
  apply fetch_pages_spec in H as (new & -> & -> & Hnd & Hnew & Hall).
  simpl. repeat split; try done.
  - intros Hin. apply (proj1 (Hnew v H)). by apply elem_of_list_to_set.
  - by apply Hnew.
Qed.

Lemma fetch_retrieves_each_new_vod_once_witness :
  ({[7; 8; 9]} : gset Z)
  = list_to_set [9] ∪ list_to_set (Vod.id <$> [Vod.mk 7 70 "https://host/a/vod.mp4"; Vod.mk 8 80 "https://host/b/vod.mp4"]) ∧
  NoDup (Vod.id <$> [Vod.mk 7 70 "https://host/a/vod.mp4";
                     Vod.mk 8 80 "https://host/b/vod.mp4"]) ∧
  (∀ v, v ∈ [Vod.mk 7 70 "https://host/a/vod.mp4";
             Vod.mk 8 80 "https://host/b/vod.mp4"] →
        (Vod.id v ∉ [9]) ∧ retrieve_ok v = Ok ()) ∧
  (∀ body v, one_page 0%nat = Ok body → v ∈ VodPage.vods body →
             Vod.id v ∈ ({[7; 8; 9]} : gset Z)).
Proof.
  apply (fetch_retrieves_each_new_vod_once one_page retrieve_ok 1 [9]
           {[7; 8; 9]}
           [Vod.mk 7 70 "https://host/a/vod.mp4";
            Vod.mk 8 80 "https://host/b/vod.mp4"]).
  vm_compute. reflexivity.
Defined.

Lemma visit_vods_total (retrieve : Vod.t → result ()) (vods : list Vod.t)
    (known : gset Z) (trace : list Vod.t) :
  (∀ v, retrieve v = Ok ()) →
  ∃ r, visit_vods retrieve vods known trace = Ok r.
Proof.
  intros Hr. revert known trace.
  induction vods as [|v vods IH]; intros known trace; simpl; [by eexists|].
  case_bool_decide; [apply IH|]. rewrite Hr. cbn. apply IH.
Qed.

(** X13: when the server answers every request, every retrieval succeeds
    and the count the server reports stays below [n] pages of 100, the
    fetch stops and returns after at most [n] page requests. *)
Theorem fetch_terminates (list_vods : nat → result VodPage.t)
    (retrieve : Vod.t → result ()) (n fuel : nat) (known_vods : list Z) :
  (∀ page, ∃ body, list_vods page = Ok body ∧
                   VodPage.count body < Z.of_nat n * page_size) →
  (∀ v, retrieve v = Ok ()) →
  (0 < n ≤ fuel)%nat →
  ∃ r, fetch_new_raw_captions list_vods retrieve fuel known_vods
       = Some (Ok r) ∧
       fetch_new_raw_captions list_vods retrieve n known_vods = Some (Ok r).
Proof.
  intros Hserver Hretrieve Hn.
  assert (∀ f page known trace,
            (page < n ≤ page + f)%nat →
            ∃ r, fetch_pages list_vods retrieve f page known trace
                 = Some (Ok r) ∧
                 ∀ f', (n ≤ page + f')%nat →
                       fetch_pages list_vods retrieve f' page known trace
                       = Some (Ok r)) as Hloop.
  { induction f as [|f IH]; intros page known trace Hp; [lia|].
    destruct (Hserver page) as (body & Hbody & Hcount).
    destruct (visit_vods_total retrieve (VodPage.vods body) known trace
                Hretrieve) as [[known1 trace1] Hvisit].
    destruct (decide ((Z.of_nat page + 1) * page_size > VodPage.count body))
      as [Hbreak|Hgo].
    - exists (known1, trace1). split.
      + simpl. rewrite Hbody, Hvisit. by rewrite bool_decide_eq_true_2.
      + intros [|f'] Hf'; [lia|]. simpl. rewrite Hbody, Hvisit.
        by rewrite bool_decide_eq_true_2.
    - assert (S page < n)%nat as Hlt by (unfold page_size in *; lia).
      destruct (IH (S page) known1 trace1) as (r & Hr & Hr'); [lia|].
      exists r. split.
      + simpl. rewrite Hbody, Hvisit. by rewrite bool_decide_eq_false_2.
      + intros [|f'] Hf'; [lia|]. simpl. rewrite Hbody, Hvisit.
        rewrite bool_decide_eq_false_2 by done. apply Hr'. lia. }
  unfold fetch_new_raw_captions.
  destruct (Hloop fuel 0%nat (list_to_set known_vods) []) as (r & Hr & Hr');
    [lia|].
  exists r. split; [done|]. apply Hr'. lia.
Qed.

Lemma fetch_terminates_witness :
  ∃ r, fetch_new_raw_captions one_page retrieve_ok 5 [9] = Some (Ok r) ∧
       fetch_new_raw_captions one_page retrieve_ok 1 [9] = Some (Ok r).
Proof.
  apply (fetch_terminates one_page retrieve_ok 1 5 [9]).
  - intros page. eexists. split; [reflexivity|]. vm_compute. reflexivity.
  - intros v. reflexivity.
  - lia.
Defined.

(** ** [enumerate_captions.py]: names and addresses *)

Lemma contains_app_sep (sep : ascii) (s t : string) :
  Str.contains sep (s +:+ String sep t) = true.
Proof.
  induction s as [|c s IH].
  - cbn [String.append]. simpl. by rewrite bool_decide_eq_true_2.
  - rewrite append_cons. simpl. rewrite IH. apply orb_true_r.
Qed.

Lemma rsplit_head_app (sep : ascii) (base tail : string) :
  Str.contains sep tail = false →
  rsplit_head sep (base +:+ String sep tail) = base.
Proof.
  intros Htail. induction base as [|c base IH].
  - cbn [String.append]. simpl. rewrite Htail.
    by rewrite bool_decide_eq_true_2.
  - rewrite append_cons. simpl. by rewrite contains_app_sep, IH.
Qed.

Lemma rsplit_head_none (sep : ascii) (s : string) :
  Str.contains sep s = false → rsplit_head sep s = s.
Proof.
  destruct s as [|c s]; [done|]. simpl.
  intros [Hc Hs]%orb_false_iff. rewrite Hs.
  apply bool_decide_eq_false in Hc. by rewrite bool_decide_eq_false_2.
Qed.

(** X14: the address of the captions is the address of the recording with
    its last path component replaced by [captions.vtt]; an address without
    any slash gets [/captions.vtt] appended. *)
Theorem caption_url_replaces_last_component (base tail : string) :
  Str.contains "/" tail = false →
  caption_url (base +:+ String "/" tail) = base +:+ "/captions.vtt" ∧
  caption_url tail = tail +:+ "/captions.vtt".
Proof.
  intros Htail. unfold caption_url.
  by rewrite rsplit_head_app, rsplit_head_none.
Qed.

Lemma caption_url_replaces_last_component_witness :
  caption_url ("https://host/a" +:+ String "/" "vod.mp4")
  = "https://host/a" +:+ "/captions.vtt" ∧
  caption_url "vod.mp4" = "vod.mp4" +:+ "/captions.vtt".
Proof.
  apply (caption_url_replaces_last_component "https://host/a" "vod.mp4").
  vm_compute. reflexivity.
Defined.

Lemma length_append (s t : string) :
  String.length (s +:+ t) = (String.length s + String.length t)%nat.
Proof.
  induction s as [|c s IH]; [done|]. rewrite append_cons. simpl.
  by rewrite IH.
Qed.

Lemma take_skip (n : nat) (s : string) :
  take_str n s +:+ Str.skip n s = s.
Proof.
  revert s. induction n as [|n IH]; intros s; [by destruct s|].
  destruct s as [|c s]; [done|]. simpl. rewrite append_cons. by rewrite IH.
Qed.

Lemma take_app_length (s t : string) :
  take_str (String.length s) (s +:+ t) = s.
Proof.
  induction s as [|c s IH]; [by destruct t|].
  rewrite append_cons. simpl. by rewrite IH.
Qed.

Lemma skip_app_length (s t : string) :
  Str.skip (String.length s) (s +:+ t) = t.
Proof. induction s as [|c s IH]; [done|]. rewrite append_cons. exact IH. Qed.

Lemma endswith_app (suffix stem : string) :
  endswith suffix (stem +:+ suffix) = true.
Proof.
  unfold endswith. rewrite length_append.
  rewrite bool_decide_eq_true_2 by lia.
  replace (String.length stem + String.length suffix
           - String.length suffix)%nat with (String.length stem) by lia.
  rewrite skip_app_length. by rewrite bool_decide_eq_true_2.
Qed.

Lemma endswith_split (suffix s : string) :
  endswith suffix s = true →
  s = drop_last (String.length suffix) s +:+ suffix.
Proof.
  unfold endswith, drop_last. intros [_ Hs]%andb_true_iff.
  apply bool_decide_eq_true in Hs.
  rewrite <- Hs at 2. by rewrite take_skip.
Qed.

Lemma append_inj_r (s t u : string) : s +:+ u = t +:+ u → s = t.
Proof.
  intros H.
  assert (String.length s = String.length t) as Hlen.
  { apply (f_equal String.length) in H. rewrite !length_append in H. lia. }
  apply (f_equal (take_str (String.length s))) in H.
  rewrite take_app_length in H. rewrite Hlen in H.
  by rewrite take_app_length in H.
Qed.

(** X15: a transcript is written exactly for the source files whose name
    ends in [.vtt], under the same name with [.txt] in place of [.vtt]; so
    two source files never share a transcript. *)
Theorem dest_filename_spec (src dst : string) :
  (dest_filename src = Some dst ↔
   ∃ stem, src = stem +:+ ".vtt" ∧ dst = stem +:+ ".txt") ∧
  (∀ src', dest_filename src = Some dst → dest_filename src' = Some dst →
           src = src').
Proof.
  assert (∀ a d, dest_filename a = Some d →
                 ∃ stem, a = stem +:+ ".vtt" ∧ d = stem +:+ ".txt") as Hstem.
  { intros a d. unfold dest_filename.
    destruct (endswith ".vtt" a) eqn:He; [|done]. simpl. intros [= <-].
    apply endswith_split in He. exists (drop_last 4 a). split; [|done].
    exact He. }
  split; [split|].
  - apply Hstem.
  - intros (stem & -> & ->). unfold dest_filename.
    rewrite endswith_app. simpl. f_equal. f_equal.
    unfold drop_last. rewrite length_append.
    replace (String.length stem + String.length ".vtt" - 4)%nat
      with (String.length stem) by (simpl; lia).
    apply take_app_length.
  - intros src' H H'.
    apply Hstem in H as (stem & -> & ->).
    apply Hstem in H' as (stem' & -> & E).
    apply append_inj_r in E. by subst.
Qed.

Lemma dest_filename_spec_witness :
  dest_filename "2021-03-01-Council-17.vtt" = Some "2021-03-01-Council-17.txt".
Proof.
  apply (proj1 (dest_filename_spec "2021-03-01-Council-17.vtt"
                  "2021-03-01-Council-17.txt")).
  exists "2021-03-01-Council-17". split; reflexivity.
Defined.

(** ** The speaker of each block *)

Lemma get_closest_match_known (x : string) (ks : list string) :
  x ∈ ks → get_closest_match x ks = Ok x.
Proof.
  intros Hx.
  destruct (get_closest_match_total x ks) as [b Hb].
  { intros ->. by apply not_elem_of_nil in Hx. }
  rewrite Hb. f_equal.
  apply get_closest_match_spec in Hb as [_ Hle].
  specialize (Hle x Hx). rewrite (proj2 (levenshtein_zero x x) eq_refl) in Hle.
  destruct Hle as [Hlt|[H0 _]]; simpl in *; [lia|].
  by apply levenshtein_zero in H0.
Qed.

(** X16: the speaker of a returned block is read off its marker line
    alone: the placeholder when the line has no colon; otherwise the label
    before the colon, trimmed and in lower case, as it is when inference is
    disabled, and replaced by its nearest known speaker when inference is
    enabled, whatever was resolved earlier in the run. *)
Theorem block_speaker_from_marker_line (captions : list Caption.t)
    (ni : bool) (ks : list string) (bs : list Block.t)
    (m : gmap string string) :
  get_speech_blocks captions ni ks = Ok (bs, m) →
  Forall2 (λ seg b,
             if Str.contains ":" (marker_line seg)
             then if ni
                  then Block.speaker b = raw_label (marker_line seg)
                  else get_closest_match (raw_label (marker_line seg)) ks
                       = Ok (Block.speaker b)
             else Block.speaker b = UNKNOWN_SPEAKER)
    (removelast (segments (accepted "" captions))) bs.
Proof.
  intros H. apply get_speech_blocks_spec in H as (-> & _ & Hres & _).
  apply Forall2_fmap_r, Forall_Forall2_diag.
  apply Forall_removelast in Hres.
  eapply Forall_impl; [exact Hres|].
  intros seg [v Hv]. unfold compose, block_of. cbn [Block.speaker].
  fold (marker_line seg). rewrite Hv. cbn [value_or].
  unfold speaker_of in Hv.
  destruct (Str.contains ":" (marker_line seg)); [|by injection Hv].
  unfold resolve in Hv. destruct ni; [by injection Hv|].
  case_bool_decide as Hin; [|done].
  injection Hv as <-. by apply get_closest_match_known.
Qed.

Lemma block_speaker_from_marker_line_witness :
  Forall2 (λ seg b,
             if Str.contains ":" (marker_line seg)
             then if false
                  then Block.speaker b = raw_label (marker_line seg)
                  else get_closest_match (raw_label (marker_line seg)) cast
                       = Ok (Block.speaker b)
             else Block.speaker b = UNKNOWN_SPEAKER)
    (removelast (segments (accepted "" scenario_A_closed))) [block_A].
Proof.
  apply (block_speaker_from_marker_line scenario_A_closed false cast
           [block_A] (speaker_map warm_resolver)).
  vm_compute. reflexivity.
Defined.

(** ** Stripping: [normalize] and the names of the known speakers *)

Lemma rev_app_list (s t : string) :
  String.list_ascii_of_string (String.rev_app s t)
  = reverse (String.list_ascii_of_string s) ++ String.list_ascii_of_string t.
Proof.
  revert t. induction s as [|a s IH]; intros t; [done|].
  simpl. rewrite IH, reverse_cons, <- app_assoc. done.
Qed.

Lemma rev_list (s : string) :
  String.list_ascii_of_string (String.rev s)
  = reverse (String.list_ascii_of_string s).
Proof. unfold String.rev. by rewrite rev_app_list, app_nil_r. Qed.

Lemma list_ascii_inj (s t : string) :
  String.list_ascii_of_string s = String.list_ascii_of_string t → s = t.
Proof.
  intros H. apply (f_equal String.string_of_list_ascii) in H.
  by rewrite !String.string_of_list_ascii_of_string in H.
Qed.

Lemma append_list (s t : string) :
  String.list_ascii_of_string (s +:+ t)
  = String.list_ascii_of_string s ++ String.list_ascii_of_string t.
Proof.
  induction s as [|a s IH]; [done|]. rewrite append_cons. simpl.
  by rewrite IH.
Qed.

Lemma rev_involutive (s : string) : String.rev (String.rev s) = s.
Proof. apply list_ascii_inj. by rewrite !rev_list, reverse_involutive. Qed.

Lemma rev_append (s t : string) :
  String.rev (s +:+ t) = String.rev t +:+ String.rev s.
Proof.
  apply list_ascii_inj.
  by rewrite rev_list, !append_list, !rev_list, reverse_app.
Qed.

Lemma lstrip_begins_clean (chars : list ascii) (s : string) :
  begins_clean chars (Str.lstrip chars s).
Proof.
  induction s as [|c s IH]; [done|]. simpl.
  case_bool_decide; [done|]. done.
Qed.

Lemma lstrip_clean (chars : list ascii) (s : string) :
  begins_clean chars s → Str.lstrip chars s = s.
Proof.
  destruct s as [|c s]; [done|]. simpl. intros Hc.
  by rewrite bool_decide_eq_false_2.
Qed.

Lemma lstrip_suffix (chars : list ascii) (s : string) :
  ∃ pre, s = pre +:+ Str.lstrip chars s.
Proof.
  induction s as [|c s [pre IH]]; [by exists ""|]. simpl.
  case_bool_decide.
  - exists (String c pre). rewrite append_cons. by rewrite <- IH.
  - by exists "".
Qed.

Lemma rstrip_ends_clean (chars : list ascii) (s : string) :
  ends_clean chars (Str.rstrip chars s).
Proof.
  unfold ends_clean, Str.rstrip. rewrite rev_involutive.
  apply lstrip_begins_clean.
Qed.

Lemma rstrip_clean (chars : list ascii) (s : string) :
  ends_clean chars s → Str.rstrip chars s = s.
Proof.
  unfold ends_clean, Str.rstrip. intros H.
  by rewrite lstrip_clean, rev_involutive.
Qed.

Lemma rstrip_prefix (chars : list ascii) (s : string) :
  ∃ post, s = Str.rstrip chars s +:+ post.
Proof.
  unfold Str.rstrip.
  destruct (lstrip_suffix chars (String.rev s)) as [pre Hpre].
  exists (String.rev pre).
  rewrite <- rev_append, <- Hpre. by rewrite rev_involutive.
Qed.

Lemma rstrip_begins_clean (chars : list ascii) (s : string) :
  begins_clean chars s → begins_clean chars (Str.rstrip chars s).
Proof.
  destruct (rstrip_prefix chars s) as [post Hpost]. intros Hs.
  destruct (Str.rstrip chars s) as [|c r]; [done|].
  rewrite Hpost in Hs. by rewrite append_cons in Hs.
Qed.

Lemma strip_clean (chars : list ascii) (s : string) :
  begins_clean chars (Str.strip chars s) ∧
  ends_clean chars (Str.strip chars s).
Proof.
  unfold Str.strip. split.
  - apply rstrip_begins_clean, lstrip_begins_clean.
  - apply rstrip_ends_clean.
Qed.

Lemma strip_id (chars : list ascii) (s : string) :
  begins_clean chars s → ends_clean chars s → Str.strip chars s = s.
Proof.
  intros Hb He. unfold Str.strip. by rewrite lstrip_clean, rstrip_clean.
Qed.

(** X17: a normalized line neither begins nor ends with a carriage return,
    a line feed, a space or a null character; a text that is clean in that
    way is its own normalized line; so normalizing twice is normalizing
    once. *)
Theorem normalize_idempotent (text : string) :
  begins_clean noise (normalize text) ∧
  ends_clean noise (normalize text) ∧
  normalize (normalize text) = normalize text ∧
  (begins_clean noise text → ends_clean noise text → normalize text = text).
Proof.
  unfold normalize. fold noise.
  destruct (strip_clean noise text) as [Hb He].
  split; [done|]. split; [done|]. split.
  - by apply strip_id.
  - apply strip_id.
Qed.

(** X18: the list of known speakers that [main] builds is never empty and
    ends with the placeholder; none of its names is empty, and each is
    already stripped of surrounding whitespace. *)
Theorem known_speakers_are_stripped (lines : list string) :
  last (load_known_speakers lines) = Some UNKNOWN_SPEAKER ∧
  load_known_speakers lines ≠ [] ∧
  Forall (λ name, name ≠ "" ∧ Str.strip Str.whitespace name = name)
    (load_known_speakers lines).
Proof.
  unfold load_known_speakers. split; [apply last_snoc|].
  split; [by intros [_ ?]%app_eq_nil|].
  apply Forall_app. split.
  - apply Forall_fmap, Forall_forall. intros line Hin.
    apply list_elem_of_filter in Hin as [Hne _]. split; [done|].
    destruct (strip_clean Str.whitespace line) as [Hb He].
    by apply strip_id.
  - apply Forall_singleton. split; [done|]. by vm_compute.
Qed.

Lemma normalize_idempotent_witness :
  normalize ">> smith: hello" = ">> smith: hello".
Proof.
  apply (proj2 (proj2 (proj2 (normalize_idempotent ">> smith: hello")))).
  - apply (bool_decide_unpack _). vm_compute. exact I.
  - unfold ends_clean. apply (bool_decide_unpack _). vm_compute. exact I.
Defined.
